(** * Squirrel.Windows lifecycle handlers of [squirrel-updater.ts]

    A shallow embedding of [app/src/main-process/squirrel-updater.ts]:
    JavaScript strings are sequences of UTF-16 code units, arrays are
    lists, and a promise is the computation that settles it, run against
    a host that answers every process spawn and file-system call. *)

From Stdlib Require Import Strings.String Strings.Ascii.
From Stdlib Require Import List ZArith NArith Bool Lia.
Import ListNotations.

(** ** JavaScript strings *)

(** A string value is its sequence of UTF-16 code units. *)
Definition jschar := N.
Definition jsstring := list jschar.

(** Literals of the source, written as Rocq strings. *)
Fixpoint js (s : string) : jsstring :=
  match s with
  | EmptyString => []
  | String c r => N_of_ascii c :: js r
  end.

Definition semicolon : jschar := 59%N.
Definition quote : jschar := 34%N.
Definition newline : jschar := 10%N.

(** [a === b] on two strings. *)
Fixpoint str_eqb (a b : jsstring) : bool :=
  match a, b with
  | [], [] => true
  | x :: a', y :: b' => N.eqb x y && str_eqb a' b'
  | _, _ => false
  end.

(** A string is truthy when it is not empty. *)
Definition truthy (s : jsstring) : bool :=
  match s with [] => false | _ :: _ => true end.

(** The class [\s] of ECMAScript regular expressions: WhiteSpace and
    LineTerminator code points. *)
Definition isWhiteSpace (c : jschar) : bool :=
  ((9 <=? c) && (c <=? 13) || (c =? 32) || (c =? 160) || (c =? 5760)
   || (8192 <=? c) && (c <=? 8202) || (c =? 8232) || (c =? 8233)
   || (c =? 8239) || (c =? 8287) || (c =? 12288) || (c =? 65279))%N.

Fixpoint dropWhile (p : jschar -> bool) (s : jsstring) : jsstring :=
  match s with
  | [] => []
  | c :: s' => if p c then dropWhile p s' else s
  end.

(** [s.replace(/^\s+|\s+$/g, '')]: the first alternative can only match
    the leading run of white space, the second only the trailing one. *)
Definition trimOuterWhiteSpace (s : jsstring) : jsstring :=
  rev (dropWhile isWhiteSpace (rev (dropWhile isWhiteSpace s))).

(** [s.split(/;+/)]: a separator is a maximal run of semicolons; the
    pieces around the separators are returned, empty ones included, and
    the empty string splits into one empty piece. *)
Fixpoint splitSemicolons (s : jsstring) : list jsstring :=
  match s with
  | [] => [[]]
  | c :: s' =>
      if N.eqb c semicolon then
        match s' with
        | c' :: _ => if N.eqb c' semicolon then splitSemicolons s'
                     else [] :: splitSemicolons s'
        | [] => [] :: splitSemicolons s'
        end
      else
        match splitSemicolons s' with
        | piece :: rest => (c :: piece) :: rest
        | [] => [[c]]
        end
  end.

(** [paths.join(sep)]. *)
Fixpoint join (sep : jsstring) (l : list jsstring) : jsstring :=
  match l with
  | [] => []
  | [x] => x
  | x :: rest => x ++ sep ++ join sep rest
  end.

(** [paths.indexOf(x)]: the index of the first element [=== x], or -1. *)
Fixpoint indexOfFrom (l : list jsstring) (x : jsstring) (i : Z) : Z :=
  match l with
  | [] => (-1)%Z
  | y :: l' => if str_eqb y x then i else indexOfFrom l' x (i + 1)
  end.

Definition indexOf (l : list jsstring) (x : jsstring) : Z := indexOfFrom l x 0.

(** [segment => segment.length], as a truth value. *)
Definition nonEmpty (segment : jsstring) : bool :=
  negb (Nat.eqb (length segment) 0).

(** The parse of lines 159-162 of [getPathSegments]:
    trim, split on [/;+/], keep the segments of non-zero length. *)
Definition parsePathOutput (stdout : jsstring) : list jsstring :=
  let pathOutput := trimOuterWhiteSpace stdout in
  filter nonEmpty (splitSemicolons pathOutput).

(** The filter of line 103 of [handleUninstall]: [p !== binPath]. *)
Definition withoutBinPath (paths : list jsstring) (binPath : jsstring)
  : list jsstring :=
  filter (fun p => negb (str_eqb p binPath)) paths.

(** ** Errors, promises and the host *)

(** The values a promise of this module is rejected with:
    [new Error(message)] made at line 193, or an error object handed
    over by Node (a failed launch, a failed file-system call). *)
Inductive js_error : Type :=
| ErrorMessage (message : jsstring)
| SystemError (code : jsstring).

(** What a launched child does to the promise of [spawn]: the call of
    [ChildProcess.spawn] throws (caught at line 206); or the child emits
    ['error'] first; or it emits its ['data'] chunks and then ['close']
    with an exit code ([None] is JavaScript's [null], a child ended by a
    signal); or it emits neither event. *)
Inductive child_behaviour : Type :=
| SpawnThrows (err : js_error)
| EmitsError (err : js_error)
| Closes (chunks : list jsstring) (code : option Z)
| NeverSettles.

(** The calls that reach outside the process, in the order made. *)
Inductive action : Type :=
| ASpawn (command : jsstring) (args : list jsstring)
| AExists (path : jsstring)
| AEnsureDir (path : jsstring)
| AWriteFile (path : jsstring) (data : jsstring).

(** Everything the module takes from its surroundings.  The functions of
    Node's [path] module are parameters; the answers of the operating
    system may depend on all the calls made before. *)
Record Host : Type := {
  execPath : jsstring;
  env_SystemRoot : option jsstring;
  Os_homedir : jsstring;
  Path_resolve : list jsstring -> jsstring;
  Path_join : list jsstring -> jsstring;
  Path_relative : jsstring -> jsstring -> jsstring;
  Path_basename : jsstring -> jsstring;
  ChildProcess_spawn : list action -> jsstring -> list jsstring -> child_behaviour;
  Fs_exists : list action -> jsstring -> bool;
  Fs_ensureDir : list action -> jsstring -> option js_error;
  Fs_writeFile : list action -> jsstring -> jsstring -> option js_error
}.

Inductive settled (A : Type) : Type :=
| Resolved (a : A)
| Rejected (e : js_error)
| Pending.

Arguments Resolved {A} a.
Arguments Rejected {A} e.
Arguments Pending {A}.

(** A promise, as the computation that settles it: from the calls made
    so far to the calls made when it settles, and how it settles. *)
Definition Async (A : Type) : Type := list action -> list action * settled A.

Definition ret {A} (a : A) : Async A := fun log => (log, Resolved a).

(** [await m] followed by the rest of an [async] function. *)
Definition bind {A B} (m : Async A) (f : A -> Async B) : Async B :=
  fun log =>
    match m log with
    | (log', Resolved a) => f a log'
    | (log', Rejected e) => (log', Rejected e)
    | (log', Pending) => (log', Pending)
    end.

Notation "x <- m ;; k" := (bind m (fun x => k))
  (at level 61, m at next level, right associativity).
Notation "m ;;; k" := (bind m (fun _ => k))
  (at level 61, right associativity).

Definition commandFailed (stdout : jsstring) : js_error :=
  ErrorMessage (js "Command failed: " ++ stdout).

Section Handlers.

Variable host : Host.

(** [spawn], lines 180-209. *)
Definition spawn (command : jsstring) (args : list jsstring) : Async jsstring :=
  fun log =>
    let log' := log ++ [ASpawn command args] in
    match ChildProcess_spawn host log command args with
    | SpawnThrows error => (log', Rejected error)
    | EmitsError err => (log', Rejected err)
    | Closes chunks code =>
        let stdout := concat chunks in
        match code with
        | Some 0%Z => (log', Resolved stdout)
        | _ => (log', Rejected (commandFailed stdout))
        end
    | NeverSettles => (log', Pending)
    end.

Definition fsExists (path : jsstring) : Async bool :=
  fun log => (log ++ [AExists path], Resolved (Fs_exists host log path)).

Definition fsEnsureDir (path : jsstring) : Async unit :=
  fun log =>
    (log ++ [AEnsureDir path],
     match Fs_ensureDir host log path with
     | Some err => Rejected err
     | None => Resolved tt
     end).

Definition fsWriteFile (path data : jsstring) : Async unit :=
  fun log =>
    (log ++ [AWriteFile path data],
     match Fs_writeFile host log path data with
     | Some err => Rejected err
     | None => Resolved tt
     end).

(** [getBinPath], lines 43-47. *)
Definition getBinPath : jsstring :=
  let appFolder := Path_resolve host [execPath host; js ".."] in
  let rootAppDir := Path_resolve host [appFolder; js ".."] in
  Path_join host [rootAppDir; js "bin"].

(** [writeCLITrampoline], lines 60-82. *)
Definition writeCLITrampoline : Async jsstring :=
  let binPath := getBinPath in
  let appFolder := Path_resolve host [execPath host; js ".."] in
  let versionedPath :=
    Path_relative host binPath
      (Path_join host [appFolder; js "resources"; js "app"; js "static";
                       js "github.bat"]) in
  let trampline :=
    js "@echo off" ++ [newline] ++ [quote] ++ js "%~dp0\" ++ versionedPath
       ++ [quote] ++ js " %*" in
  let trampolinePath := Path_join host [binPath; js "github.bat"] in
  fsEnsureDir binPath ;;;
  fsWriteFile trampolinePath trampline ;;;
  ret binPath.

(** [spawnSquirrelUpdate], lines 85-92. *)
Definition updateDotExe : jsstring :=
  let appFolder := Path_resolve host [execPath host; js ".."] in
  let rootAppDir := Path_resolve host [appFolder; js ".."] in
  Path_resolve host [Path_join host [rootAppDir; js "Update.exe"]].

Definition exeName : jsstring := Path_basename host (execPath host).

Definition spawnSquirrelUpdate (command : jsstring) : Async unit :=
  spawn updateDotExe [command; exeName] ;;; ret tt.

(** [createShortcut], lines 94-96, and [removeShortcut], lines 107-109. *)
Definition createShortcut : Async unit := spawnSquirrelUpdate (js "--createShortcut").

Definition removeShortcut : Async unit := spawnSquirrelUpdate (js "--removeShortcut").

(** [updateShortcut], lines 111-129. *)
Definition updateShortcut : Async unit :=
  let homeDirectory := Os_homedir host in
  if truthy homeDirectory then
    let desktopShortcutPath :=
      Path_join host [homeDirectory; js "Desktop"; js "GitHub Desktop.lnk"] in
    exists_ <- fsExists desktopShortcutPath ;;
    if exists_ then createShortcut else ret tt
  else createShortcut.

(** [getPathSegments], lines 132-163. *)
Definition powershellPath : jsstring :=
  match env_SystemRoot host with
  | Some systemRoot =>
      if truthy systemRoot then
        let system32Path := Path_join host [systemRoot; js "System32"] in
        Path_join host [system32Path; js "WindowsPowerShell"; js "v1.0";
                        js "powershell.exe"]
      else js "powershell.exe"
  | None => js "powershell.exe"
  end.

Definition powershellArgs : list jsstring :=
  [ js "-noprofile"; js "-ExecutionPolicy"; js "RemoteSigned"; js "-command";
    [newline]
    ++ js "      [Console]::OutputEncoding=[System.Text.Encoding]::UTF8"
    ++ [newline]
    ++ js "      $output=[environment]::GetEnvironmentVariable('Path', 'User')"
    ++ [newline]
    ++ js "      [Console]::WriteLine($output)"
    ++ [newline]
    ++ js "    " ].

Definition getPathSegments : Async (list jsstring) :=
  stdout <- spawn powershellPath powershellArgs ;;
  ret (parsePathOutput stdout).

(** [setPathSegments], lines 166-177. *)
Definition setxPath : jsstring :=
  match env_SystemRoot host with
  | Some systemRoot =>
      if truthy systemRoot then
        let system32Path := Path_join host [systemRoot; js "System32"] in
        Path_join host [system32Path; js "setx.exe"]
      else js "setx.exe"
  | None => js "setx.exe"
  end.

Definition setPathSegments (paths : list jsstring) : Async unit :=
  spawn setxPath [js "Path"; join [semicolon] paths] ;;; ret tt.

(** [handleUpdated], lines 29-37. *)
Definition handleUpdated : Async unit :=
  updateShortcut ;;;
  binPath <- writeCLITrampoline ;;
  paths <- getPathSegments ;;
  if (indexOf paths binPath <? 0)%Z
  then setPathSegments (paths ++ [binPath])
  else ret tt.

(** [handleUninstall], lines 98-105. *)
Definition handleUninstall : Async unit :=
  removeShortcut ;;;
  paths <- getPathSegments ;;
  let binPath := getBinPath in
  let pathsWithoutBinPath := withoutBinPath paths binPath in
  setPathSegments pathsWithoutBinPath.

(** [handleSquirrelEvent], lines 11-27; [None] is the returned [null]. *)
Definition handleSquirrelEvent (eventName : jsstring) : option (Async unit) :=
  if str_eqb eventName (js "--squirrel-install") then Some createShortcut
  else if str_eqb eventName (js "--squirrel-updated") then Some handleUpdated
  else if str_eqb eventName (js "--squirrel-uninstall") then Some handleUninstall
  else if str_eqb eventName (js "--squirrel-obsolete") then Some (ret tt)
  else None.

End Handlers.

(** ** Observations on a run *)

(** The calls a computation adds to the calls made before it. *)
Definition performed {A} (m : Async A) (log : list action) : list action :=
  skipn (length log) (fst (m log)).

Definition startsWithWhiteSpace (s : jsstring) : bool :=
  match s with c :: _ => isWhiteSpace c | [] => false end.

Definition endsWithWhiteSpace (s : jsstring) : bool :=
  startsWithWhiteSpace (rev s).

Definition startsWithSemicolon (s : jsstring) : bool :=
  match s with c :: _ => N.eqb c semicolon | [] => false end.

(** [SemicolonSeparated s segs]: [segs] are, in order, the maximal
    non-empty semicolon-free pieces of [s]. *)
Inductive SemicolonSeparated : jsstring -> list jsstring -> Prop :=
| SS_end : SemicolonSeparated [] []
| SS_separator s segs :
    SemicolonSeparated s segs -> SemicolonSeparated (semicolon :: s) segs
| SS_segment seg s segs :
    seg <> [] -> ~ In semicolon seg ->
    (s = [] \/ startsWithSemicolon s = true) ->
    SemicolonSeparated s segs -> SemicolonSeparated (seg ++ s) (seg :: segs).

(** The segments the user [Path] holds once lines 34-36 of
    [handleUpdated] have run on the segments read: the list written when
    there is a write, the list read when there is none. *)
Definition segmentsAfterUpdated (paths : list jsstring) (binPath : jsstring)
  : list jsstring :=
  if (indexOf paths binPath <? 0)%Z then paths ++ [binPath] else paths.

(** Whether a call is the one [createShortcut] makes. *)
Definition isCreateShortcut (host : Host) (a : action) : bool :=
  match a with
  | ASpawn command [verb; exe] =>
      str_eqb command (updateDotExe host)
      && str_eqb verb (js "--createShortcut")
      && str_eqb exe (exeName host)
  | _ => false
  end.

Definition shortcutCreations (host : Host) (acts : list action) : nat :=
  length (filter (isCreateShortcut host) acts).

(** A computation in which a command that exits with a non-zero status
    is the last call made and rejects the whole computation. *)
Definition FailStop (host : Host) {A} (m : Async A) : Prop :=
  forall log0, exists ext,
    fst (m log0) = log0 ++ ext /\
    forall pre command args post chunks code,
      ext = pre ++ ASpawn command args :: post ->
      ChildProcess_spawn host (log0 ++ pre) command args = Closes chunks code ->
      code <> Some 0%Z ->
      post = [] /\ snd (m log0) = Rejected (commandFailed (concat chunks)).

(** ** A host for the examples

    Paths are joined with a backslash and [..] drops the last component;
    the application runs from [C:\app-1.0.0], so the bin directory is
    [C:\bin].  PowerShell prints [pathValue] followed by a line break and
    exits with [powershellCode]; every other command and file-system call
    succeeds, and the desktop shortcut exists when [shortcut] is set. *)
Definition backslash : jschar := 92%N.

Definition exampleParent (p : jsstring) : jsstring :=
  rev (tl (dropWhile (fun c => negb (N.eqb c backslash)) (rev p))).

Definition exampleResolve (l : list jsstring) : jsstring :=
  match l with
  | [p; q] => if str_eqb q (js "..") then exampleParent p else join [backslash] l
  | _ => join [backslash] l
  end.

Fixpoint exampleBasename (p : jsstring) : jsstring :=
  match p with
  | [] => []
  | c :: p' =>
      if existsb (N.eqb backslash) p' then exampleBasename p' else
      if N.eqb c backslash then p' else p
  end.

Definition exampleChild (pathValue : jsstring) (powershellCode : option Z)
  (args : list jsstring) : child_behaviour :=
  match args with
  | flag :: _ =>
      if str_eqb flag (js "-noprofile")
      then Closes [pathValue; [13; 10]%N] powershellCode
      else Closes [] (Some 0%Z)
  | [] => Closes [] (Some 0%Z)
  end.

Definition exampleHost (home pathValue : jsstring) (powershellCode : option Z)
  (shortcut : bool) : Host :=
  {| execPath := js "C:\app-1.0.0\GitHubDesktop.exe";
     env_SystemRoot := Some (js "C:\Windows");
     Os_homedir := home;
     Path_resolve := exampleResolve;
     Path_join := join [backslash];
     Path_relative := fun _ to => to;
     Path_basename := exampleBasename;
     ChildProcess_spawn := fun _ _ args => exampleChild pathValue powershellCode args;
     Fs_exists := fun _ _ => shortcut;
     Fs_ensureDir := fun _ _ => None;
     Fs_writeFile := fun _ _ _ => None |}.

Definition home : jsstring := js "C:\Users\me".

(** A character other than the separator. *)
Definition notSemicolon (c : jschar) : bool := negb (N.eqb c semicolon).

(** ** Answers of the host, call by call *)

(** How the call [a], made after the calls [history], ends: the way
    [spawn] settles on the child's behaviour, the way the callbacks of
    [Fs.ensureDir] and [Fs.writeFile] are tested in [writeCLITrampoline];
    [Fs.exists] reports no error. *)
Definition callResult (host : Host) (history : list action) (a : action)
  : settled unit :=
  match a with
  | ASpawn command args =>
      match ChildProcess_spawn host history command args with
      | SpawnThrows error => Rejected error
      | EmitsError err => Rejected err
      | Closes chunks code =>
          match code with
          | Some 0%Z => Resolved tt
          | _ => Rejected (commandFailed (concat chunks))
          end
      | NeverSettles => Pending
      end
  | AExists _ => Resolved tt
  | AEnsureDir path =>
      match Fs_ensureDir host history path with
      | Some err => Rejected err
      | None => Resolved tt
      end
  | AWriteFile path data =>
      match Fs_writeFile host history path data with
      | Some err => Rejected err
      | None => Resolved tt
      end
  end.

(** A computation that goes on to a next call only after the call
    before succeeded, and settles as its last call did: resolved only
    when the last call succeeded, rejected with the error of the last
    call, pending when the last call never ends. *)
Definition Sequential (host : Host) {A} (m : Async A) : Prop :=
  forall log0, exists ext,
    fst (m log0) = log0 ++ ext /\
    (forall pre a post,
        ext = pre ++ a :: post -> post <> [] ->
        callResult host (log0 ++ pre) a = Resolved tt) /\
    match snd (m log0) with
    | Resolved _ =>
        forall pre a, ext = pre ++ [a] ->
                      callResult host (log0 ++ pre) a = Resolved tt
    | Rejected e =>
        exists pre a, ext = pre ++ [a] /\
                      callResult host (log0 ++ pre) a = Rejected e
    | Pending =>
        exists pre a, ext = pre ++ [a] /\
                      callResult host (log0 ++ pre) a = Pending
    end.

(** The calls of the handlers, by name. *)
Definition removeCall (host : Host) : action :=
  ASpawn (updateDotExe host) [js "--removeShortcut"; exeName host].

Definition createCall (host : Host) : action :=
  ASpawn (updateDotExe host) [js "--createShortcut"; exeName host].

Definition existsCall (host : Host) : action :=
  AExists (Path_join host [Os_homedir host; js "Desktop"; js "GitHub Desktop.lnk"]).

Definition readCall (host : Host) : action :=
  ASpawn (powershellPath host) powershellArgs.

Definition writeCall (host : Host) (paths : list jsstring) : action :=
  ASpawn (setxPath host) [js "Path"; join [semicolon] paths].

Definition ensureDirCall (host : Host) : action :=
  AEnsureDir (getBinPath host).

Definition trampolineCall (host : Host) : action :=
  AWriteFile
    (Path_join host [getBinPath host; js "github.bat"])
    (js "@echo off" ++ [newline] ++ [quote] ++ js "%~dp0\"
       ++ Path_relative host (getBinPath host)
            (Path_join host [Path_resolve host [execPath host; js ".."];
                             js "resources"; js "app"; js "static";
                             js "github.bat"])
       ++ [quote] ++ js " %*").

(** The runs of [handleUninstall]. *)
Inductive UninstallRun (host : Host) (log0 : list action)
  : list action -> settled unit -> Prop :=
| UR_remove r :
    (forall v, r <> Resolved v) -> UninstallRun host log0 [removeCall host] r
| UR_read r :
    (forall v, r <> Resolved v) ->
    UninstallRun host log0 [removeCall host; readCall host] r
| UR_write chunks r :
    ChildProcess_spawn host (log0 ++ [removeCall host]) (powershellPath host)
                       powershellArgs = Closes chunks (Some 0%Z) ->
    UninstallRun host log0
      [removeCall host; readCall host;
       writeCall host (withoutBinPath (parsePathOutput (concat chunks))
                                      (getBinPath host))] r.

(** The runs of [handleUpdated], after the calls [S] of [updateShortcut]. *)
Inductive UpdatedRun (host : Host) (log0 S : list action)
  : list action -> settled unit -> Prop :=
| UP_shortcut r : (forall v, r <> Resolved v) -> UpdatedRun host log0 S [] r
| UP_ensure r :
    (forall v, r <> Resolved v) -> UpdatedRun host log0 S [ensureDirCall host] r
| UP_trampoline r :
    (forall v, r <> Resolved v) ->
    UpdatedRun host log0 S [ensureDirCall host; trampolineCall host] r
| UP_read r :
    (forall v, r <> Resolved v) ->
    UpdatedRun host log0 S [ensureDirCall host; trampolineCall host; readCall host] r
| UP_present chunks :
    ChildProcess_spawn host
      (log0 ++ S ++ [ensureDirCall host; trampolineCall host])
      (powershellPath host) powershellArgs = Closes chunks (Some 0%Z) ->
    In (getBinPath host) (parsePathOutput (concat chunks)) ->
    UpdatedRun host log0 S [ensureDirCall host; trampolineCall host; readCall host]
               (Resolved tt)
| UP_write chunks r :
    ChildProcess_spawn host
      (log0 ++ S ++ [ensureDirCall host; trampolineCall host])
      (powershellPath host) powershellArgs = Closes chunks (Some 0%Z) ->
    ~ In (getBinPath host) (parsePathOutput (concat chunks)) ->
    UpdatedRun host log0 S
      [ensureDirCall host; trampolineCall host; readCall host;
       writeCall host (parsePathOutput (concat chunks) ++ [getBinPath host])] r.

(** The example host, started from the executable [exe]. *)
Definition exampleHostFrom (exe pathValue : jsstring) : Host :=
  {| execPath := exe;
     env_SystemRoot := None;
     Os_homedir := [];
     Path_resolve := exampleResolve;
     Path_join := join [backslash];
     Path_relative := fun _ to => to;
     Path_basename := exampleBasename;
     ChildProcess_spawn := fun _ _ args => exampleChild pathValue (Some 0%Z) args;
     Fs_exists := fun _ _ => false;
     Fs_ensureDir := fun _ _ => None;
     Fs_writeFile := fun _ _ _ => None |}.

(** A host whose directory creation answers [ensureDir] and whose
    PowerShell behaves as [read]; there is no home directory, and
    [Update.exe] and [setx] succeed. *)
Definition exampleHostAnswering (ensureDir : option js_error)
  (read : child_behaviour) : Host :=
  {| execPath := js "C:\app-1.0.0\GitHubDesktop.exe";
     env_SystemRoot := Some [];
     Os_homedir := [];
     Path_resolve := exampleResolve;
     Path_join := join [backslash];
     Path_relative := fun _ to => to;
     Path_basename := exampleBasename;
     ChildProcess_spawn := fun _ _ args =>
       match args with
       | flag :: _ =>
           if str_eqb flag (js "-noprofile") then read else Closes [] (Some 0%Z)
       | [] => Closes [] (Some 0%Z)
       end;
     Fs_exists := fun _ _ => false;
     Fs_ensureDir := fun _ _ => ensureDir;
     Fs_writeFile := fun _ _ _ => None |}.

(** A call of the shape [setPathSegments] makes. *)
Definition isPathWrite (a : action) : Prop :=
  exists command value, a = ASpawn command [js "Path"; value].

(** * Properties *)

(** ** Strings and arrays *)

Lemma str_eqb_spec (a b : jsstring) : str_eqb a b = true <-> a = b.
Proof.
  revert b; induction a as [|x a IH]; intros [|y b]; simpl;
    try (split; [discriminate | discriminate]); try tauto.
  rewrite andb_true_iff, N.eqb_eq, IH. split.
  - intros [-> ->]; reflexivity.
  - intros H; injection H; auto.
Qed.

Lemma str_eqb_refl (a : jsstring) : str_eqb a a = true.
Proof. apply str_eqb_spec; reflexivity. Qed.

Lemma str_eqb_false (a b : jsstring) : str_eqb a b = false <-> a <> b.
Proof.
  rewrite <- str_eqb_spec. destruct (str_eqb a b); split; congruence.
Qed.

Lemma indexOfFrom_found (l : list jsstring) (x : jsstring) (i : Z) :
  (0 <= i)%Z -> In x l -> (0 <= indexOfFrom l x i)%Z.
Proof.
  revert i; induction l as [|y l IH]; simpl; intros i Hi Hin; [tauto|].
  destruct (str_eqb y x) eqn:E; [assumption|].
  destruct Hin as [->|Hin]; [rewrite str_eqb_refl in E; discriminate|].
  apply IH; [lia | assumption].
Qed.

Lemma indexOfFrom_missing (l : list jsstring) (x : jsstring) (i : Z) :
  ~ In x l -> indexOfFrom l x i = (-1)%Z.
Proof.
  revert i; induction l as [|y l IH]; simpl; intros i Hin; [reflexivity|].
  destruct (str_eqb y x) eqn:E.
  - apply str_eqb_spec in E. tauto.
  - apply IH. tauto.
Qed.

Lemma indexOf_negative (l : list jsstring) (x : jsstring) :
  (indexOf l x <? 0)%Z = true <-> ~ In x l.
Proof.
  unfold indexOf. rewrite Z.ltb_lt. split.
  - intros H Hin. pose proof (@indexOfFrom_found l x 0%Z (Z.le_refl _) Hin). lia.
  - intros H. rewrite indexOfFrom_missing by assumption. lia.
Qed.

Lemma indexOf_nonnegative (l : list jsstring) (x : jsstring) :
  (indexOf l x <? 0)%Z = false <-> In x l.
Proof.
  pose proof (indexOf_negative l x) as [H1 H2].
  destruct (in_dec (list_eq_dec N.eq_dec) x l) as [i|n].
  - split; [tauto|]. intros _.
    destruct (indexOf l x <? 0)%Z; [exfalso; apply H1; auto | reflexivity].
  - rewrite (H2 n). split; [discriminate | tauto].
Qed.

(** ** Trimming *)

Lemma dropWhile_decompose (p : jschar -> bool) (s : jsstring) :
  exists lead, s = lead ++ dropWhile p s /\ Forall (fun c => p c = true) lead.
Proof.
  induction s as [|c s [lead [E F]]]; simpl.
  - exists []. split; [reflexivity | constructor].
  - destruct (p c) eqn:Hc.
    + exists (c :: lead). split; [simpl; congruence | constructor; assumption].
    + exists []. split; [reflexivity | constructor].
Qed.

Lemma dropWhile_head (p : jschar -> bool) (s : jsstring) :
  match dropWhile p s with c :: _ => p c = false | [] => True end.
Proof.
  induction s as [|c s IH]; simpl; [exact I|].
  destruct (p c) eqn:Hc; [exact IH | exact Hc].
Qed.

Lemma dropWhile_fixed (p : jschar -> bool) (s : jsstring) :
  match s with c :: _ => p c = false | [] => True end -> dropWhile p s = s.
Proof. destruct s as [|c s]; simpl; [reflexivity | intros ->; reflexivity]. Qed.

Lemma startsWithWhiteSpace_head (s : jsstring) :
  startsWithWhiteSpace s = false <->
  match s with c :: _ => isWhiteSpace c = false | [] => True end.
Proof. destruct s; simpl; tauto. Qed.

Lemma trim_decompose (s : jsstring) :
  exists lead trail,
    s = lead ++ trimOuterWhiteSpace s ++ trail /\
    Forall (fun c => isWhiteSpace c = true) lead /\
    Forall (fun c => isWhiteSpace c = true) trail.
Proof.
  unfold trimOuterWhiteSpace.
  destruct (dropWhile_decompose isWhiteSpace s) as [lead [E1 F1]].
  destruct (dropWhile_decompose isWhiteSpace (rev (dropWhile isWhiteSpace s)))
    as [tr [E2 F2]].
  exists lead, (rev tr). repeat split.
  - rewrite <- rev_app_distr, <- E2, rev_involutive. exact E1.
  - exact F1.
  - apply Forall_rev. exact F2.
Qed.

Lemma trim_ends (s : jsstring) :
  startsWithWhiteSpace (trimOuterWhiteSpace s) = false /\
  endsWithWhiteSpace (trimOuterWhiteSpace s) = false.
Proof.
  unfold endsWithWhiteSpace, trimOuterWhiteSpace. rewrite rev_involutive.
  set (t := dropWhile isWhiteSpace s).
  assert (Ht : startsWithWhiteSpace t = false)
    by (apply startsWithWhiteSpace_head; apply dropWhile_head).
  split; [| apply startsWithWhiteSpace_head; apply dropWhile_head].
  destruct (dropWhile_decompose isWhiteSpace (rev t)) as [tr [E F]].
  set (u := dropWhile isWhiteSpace (rev t)) in *.
  assert (Et : t = rev u ++ rev tr)
    by (rewrite <- rev_app_distr, <- E, rev_involutive; reflexivity).
  destruct (rev u) as [|c r] eqn:Hu; [reflexivity|].
  rewrite Et in Ht. exact Ht.
Qed.

Lemma trim_fixed (s : jsstring) :
  startsWithWhiteSpace s = false -> endsWithWhiteSpace s = false ->
  trimOuterWhiteSpace s = s.
Proof.
  intros Hs He. unfold trimOuterWhiteSpace.
  rewrite (@dropWhile_fixed isWhiteSpace s)
    by (apply startsWithWhiteSpace_head; exact Hs).
  rewrite dropWhile_fixed by (apply startsWithWhiteSpace_head; exact He).
  apply rev_involutive.
Qed.

(** ** Splitting on semicolons *)

(** A leading or trailing separator leaves an empty piece, a run of
    semicolons is one separator, and the empty string is one piece. *)
Example splitSemicolons_edges :
  splitSemicolons [] = [[]] /\
  splitSemicolons (js ";") = [[]; []] /\
  splitSemicolons (js ";;a;;;b;") = [[]; js "a"; js "b"; []] /\
  splitSemicolons (js "a b") = [js "a b"].
Proof. repeat split; reflexivity. Qed.

Lemma split_first (s : jsstring) :
  exists piece rest,
    splitSemicolons s = piece :: rest /\
    (piece = [] <-> (s = [] \/ startsWithSemicolon s = true)).
Proof.
  induction s as [|c s (piece & rest & E & Hp)].
  - exists [], []. simpl. tauto.
  - simpl. destruct (N.eqb c semicolon) eqn:Ec.
    + destruct s as [|c' s'].
      * exists [], [[]]. tauto.
      * destruct (N.eqb c' semicolon) eqn:Ec'.
        -- exists piece, rest. split; [exact E|].
           split; [tauto|]. intros _. apply Hp. right. exact Ec'.
        -- exists [], (splitSemicolons (c' :: s')). tauto.
    + rewrite E. exists (c :: piece), rest. split; [reflexivity|].
      split; [discriminate|]. intros [H|H]; discriminate.
Qed.

Lemma split_separated (s : jsstring) :
  SemicolonSeparated s (filter nonEmpty (splitSemicolons s)).
Proof.
  induction s as [|c s IH].
  - simpl. constructor.
  - simpl. destruct (N.eqb c semicolon) eqn:Ec.
    + apply N.eqb_eq in Ec. subst c.
      destruct s as [|c' s'].
      * simpl. constructor. constructor.
      * destruct (N.eqb c' semicolon); [|simpl filter];
          constructor; exact IH.
    + destruct (split_first s) as (piece & rest & E & Hp).
      rewrite E in *. simpl filter in *.
      assert (Hc : ~ In semicolon [c]).
      { intros [H|[]]. subst c. rewrite N.eqb_refl in Ec. discriminate. }
      destruct piece as [|p0 ps].
      * simpl in IH. apply (@SS_segment [c] s); auto.
        -- discriminate.
        -- apply Hp. reflexivity.
      * simpl in IH. inversion IH as [|s0 segs0 H0|seg s0 segs0 Hne Hno Hs H0];
          subst.
        -- destruct Hp as [_ Hp]. discriminate Hp. right. apply N.eqb_refl.
        -- apply (@SS_segment (c :: p0 :: ps) s0); auto.
           ++ discriminate.
           ++ intros [H|H]; [|tauto]. subst c.
              rewrite N.eqb_refl in Ec. discriminate.
Qed.

Lemma separated_segments (s : jsstring) (segs : list jsstring) :
  SemicolonSeparated s segs ->
  Forall (fun seg => seg <> [] /\ ~ In semicolon seg) segs.
Proof. induction 1; auto. Qed.

Lemma segment_boundary (a b s t : jsstring) :
  ~ In semicolon a -> ~ In semicolon b ->
  (s = [] \/ startsWithSemicolon s = true) ->
  (t = [] \/ startsWithSemicolon t = true) ->
  a ++ s = b ++ t -> a = b /\ s = t.
Proof.
  revert b; induction a as [|x a IH]; intros [|y b] Ha Hb Hs Ht E; simpl in *.
  - auto.
  - exfalso. destruct Hs as [->|Hs]; [discriminate|].
    subst s. simpl in Hs. apply N.eqb_eq in Hs. tauto.
  - exfalso. destruct Ht as [->|Ht]; [discriminate|].
    subst t. simpl in Ht. apply N.eqb_eq in Ht. tauto.
  - injection E as -> E.
    destruct (IH b) as [-> ->]; auto.
Qed.

Lemma separated_functional (s : jsstring) (segs segs' : list jsstring) :
  SemicolonSeparated s segs -> SemicolonSeparated s segs' -> segs = segs'.
Proof.
  intros H; revert segs'.
  induction H as [|s segs H IH|seg s segs Hne Hno Hs H IH]; intros segs' H'.
  - remember (@nil jschar) as w eqn:Ew.
    destruct H' as [|s0 sg0 H0|seg' s' sg' Hne' Hno' Hs' H0];
      [reflexivity | discriminate |].
    destruct seg'; [tauto | discriminate].
  - remember (semicolon :: s) as w eqn:Ew.
    destruct H' as [|s0 sg0 H0|seg' s' sg' Hne' Hno' Hs' H0]; [discriminate | |].
    + injection Ew as ->. apply IH. assumption.
    + destruct seg' as [|c r]; [tauto|].
      simpl in Ew. injection Ew as -> _. simpl in Hno'. tauto.
  - remember (seg ++ s) as w eqn:Ew.
    destruct H' as [|s0 sg0 H0|seg' s' sg' Hne' Hno' Hs' H0].
    + destruct seg; [tauto | discriminate].
    + destruct seg as [|c r]; [tauto|].
      simpl in Ew. injection Ew as <- _. simpl in Hno. tauto.
    + destruct (@segment_boundary seg' seg s' s) as [-> ->]; auto.
      f_equal. apply IH. assumption.
Qed.

(** C5: for every captured output, the parse of [getPathSegments] removes
    the surrounding white space and nothing else, returns in order exactly
    the maximal non-empty pieces between runs of semicolons, so no
    returned segment is empty; [" C:\A;;C:\B; "] parses to
    [["C:\A"; "C:\B"]]. *)
Theorem parsePathOutput_spec (stdout : jsstring) :
  (exists lead trail,
      stdout = lead ++ trimOuterWhiteSpace stdout ++ trail /\
      Forall (fun c => isWhiteSpace c = true) lead /\
      Forall (fun c => isWhiteSpace c = true) trail) /\
  startsWithWhiteSpace (trimOuterWhiteSpace stdout) = false /\
  endsWithWhiteSpace (trimOuterWhiteSpace stdout) = false /\
  SemicolonSeparated (trimOuterWhiteSpace stdout) (parsePathOutput stdout) /\
  (forall segs, SemicolonSeparated (trimOuterWhiteSpace stdout) segs ->
                segs = parsePathOutput stdout) /\
  Forall (fun segment => segment <> [] /\ ~ In semicolon segment)
         (parsePathOutput stdout) /\
  parsePathOutput (js " C:\A;;C:\B; ") = [js "C:\A"; js "C:\B"].
Proof.
  pose proof (split_separated (trimOuterWhiteSpace stdout)) as HS.
  split; [apply trim_decompose|].
  split; [apply trim_ends|].
  split; [apply trim_ends|].
  split; [exact HS|].
  split; [intros segs H; exact (separated_functional _ _ _ H HS)|].
  split; [exact (separated_segments _ _ HS) | reflexivity].
Qed.

(** ** Joining and parsing back *)

Lemma split_no_semicolon (x : jsstring) :
  ~ In semicolon x -> splitSemicolons x = [x].
Proof.
  induction x as [|c x IH]; simpl; intros H; [reflexivity|].
  destruct (N.eqb c semicolon) eqn:Ec.
  - apply N.eqb_eq in Ec. exfalso. auto.
  - rewrite IH by tauto. reflexivity.
Qed.

Lemma split_app_separator (x t : jsstring) :
  ~ In semicolon x -> startsWithSemicolon t = false ->
  splitSemicolons (x ++ semicolon :: t) = x :: splitSemicolons t.
Proof.
  intros Hx Ht. induction x as [|c x IH].
  - simpl app. destruct t as [|c' t']; [reflexivity|].
    simpl in Ht. change (splitSemicolons (semicolon :: c' :: t'))
      with (if N.eqb c' semicolon then splitSemicolons (c' :: t')
            else [] :: splitSemicolons (c' :: t')).
    rewrite Ht. reflexivity.
  - simpl in *. destruct (N.eqb c semicolon) eqn:Ec.
    + apply N.eqb_eq in Ec. exfalso. auto.
    + rewrite IH by tauto. reflexivity.
Qed.

Lemma join_cons2 (sep x y : jsstring) (rest : list jsstring) :
  join sep (x :: y :: rest) = x ++ sep ++ join sep (y :: rest).
Proof. reflexivity. Qed.

Lemma join_head (sep x : jsstring) (rest : list jsstring) :
  x <> [] -> exists c tl_, x = c :: tl_ /\ exists r, join sep (x :: rest) = c :: r.
Proof.
  destruct x as [|c x]; [tauto|]. intros _. exists c, x. split; [reflexivity|].
  destruct rest; simpl; eauto.
Qed.

Lemma split_join (segs : list jsstring) :
  Forall (fun seg => seg <> [] /\ ~ In semicolon seg) segs -> segs <> [] ->
  splitSemicolons (join [semicolon] segs) = segs.
Proof.
  induction 1 as [|x segs [Hne Hno] HF IH]; [tauto|]. intros _.
  destruct segs as [|y rest].
  - simpl. apply split_no_semicolon. exact Hno.
  - change (join [semicolon] (x :: y :: rest))
      with (x ++ semicolon :: join [semicolon] (y :: rest)).
    inversion HF as [|? ? [Hy Hny] _]; subst.
    destruct (@join_head [semicolon] y rest Hy) as (c & t & E & r & Er).
    rewrite split_app_separator; auto.
    + rewrite IH by discriminate. reflexivity.
    + transitivity (startsWithSemicolon (c :: r)); [f_equal; exact Er|].
      subst y. simpl. destruct (N.eqb c semicolon) eqn:Ec; [|reflexivity].
      apply N.eqb_eq in Ec. subst c. simpl in Hny. tauto.
Qed.

Lemma endsWithWhiteSpace_app (a b : jsstring) :
  b <> [] -> endsWithWhiteSpace (a ++ b) = endsWithWhiteSpace b.
Proof.
  intros Hb. unfold endsWithWhiteSpace. rewrite rev_app_distr.
  destruct (rev b) as [|c r] eqn:E; [|reflexivity].
  apply (f_equal (@rev jschar)) in E. rewrite rev_involutive in E. tauto.
Qed.

Lemma join_starts (segs : list jsstring) :
  Forall (fun seg => seg <> [] /\ startsWithWhiteSpace seg = false) segs ->
  startsWithWhiteSpace (join [semicolon] segs) = false.
Proof.
  destruct 1 as [|x segs [Hne Hs] _]; [reflexivity|].
  destruct (@join_head [semicolon] x segs Hne) as (c & t & E & r & Er).
  transitivity (startsWithWhiteSpace (c :: r)); [f_equal; exact Er|].
  subst x. exact Hs.
Qed.

Lemma join_ends (segs : list jsstring) :
  Forall (fun seg => seg <> [] /\ endsWithWhiteSpace seg = false) segs ->
  endsWithWhiteSpace (join [semicolon] segs) = false.
Proof.
  induction 1 as [|x segs [Hne He] HF IH]; [reflexivity|].
  destruct segs as [|y rest]; [exact He|].
  rewrite join_cons2, app_assoc, endsWithWhiteSpace_app; [exact IH|].
  inversion HF as [|? ? [Hy _] _]; subst.
  destruct (@join_head [semicolon] y rest Hy) as (c & t & _ & r & Er).
  intros E0. apply (f_equal (@length jschar)) in E0.
  apply (f_equal (@length jschar)) in Er. simpl in *. congruence.
Qed.

Lemma filter_nonEmpty (segs : list jsstring) :
  Forall (fun seg => seg <> []) segs -> filter nonEmpty segs = segs.
Proof.
  induction 1 as [|x segs Hx _ IH]; [reflexivity|].
  simpl. rewrite IH. destruct x; [tauto | reflexivity].
Qed.

(** C10: parsing the semicolon-joined string that [setPathSegments]
    passes to [setx] gives back the segments, when every segment is
    non-empty, has no semicolon and neither starts nor ends with white
    space. *)
Theorem parse_join_roundtrip (segs : list jsstring) :
  Forall (fun seg => seg <> [] /\ ~ In semicolon seg /\
                     startsWithWhiteSpace seg = false /\
                     endsWithWhiteSpace seg = false) segs ->
  parsePathOutput (join [semicolon] segs) = segs.
Proof.
  intros H. unfold parsePathOutput.
  rewrite trim_fixed.
  - destruct segs as [|x rest]; [reflexivity|].
    rewrite split_join; [| |discriminate].
    + apply filter_nonEmpty. eapply Forall_impl; [|exact H]. simpl; tauto.
    + eapply Forall_impl; [|exact H]. simpl; tauto.
  - apply join_starts. eapply Forall_impl; [|exact H]. simpl; tauto.
  - apply join_ends. eapply Forall_impl; [|exact H]. simpl; tauto.
Qed.

Lemma parse_join_roundtrip_witness :
  parsePathOutput (join [semicolon] [js "C:\A"; js "C:\Program Files\x"; js "C:\bin"])
  = [js "C:\A"; js "C:\Program Files\x"; js "C:\bin"].
Proof.
  apply parse_join_roundtrip.
  repeat constructor; try discriminate;
    (intros H; vm_compute in H; intuition discriminate).
Defined.

(** ** Promises *)

Lemma bind_resolved {A B} (m : Async A) (f : A -> Async B) log log' a :
  m log = (log', Resolved a) -> bind m f log = f a log'.
Proof. unfold bind. intros ->. reflexivity. Qed.

Lemma bind_rejected {A B} (m : Async A) (f : A -> Async B) log log' e :
  m log = (log', Rejected e) -> bind m f log = (log', Rejected e).
Proof. unfold bind. intros ->. reflexivity. Qed.

Lemma bind_pending {A B} (m : Async A) (f : A -> Async B) log log' :
  m log = (log', Pending) -> bind m f log = (log', Pending).
Proof. unfold bind. intros ->. reflexivity. Qed.

Lemma performed_app {A} (m : Async A) (log ext : list action) :
  fst (m log) = log ++ ext -> performed m log = ext.
Proof.
  unfold performed. intros ->.
  rewrite skipn_app, skipn_all, Nat.sub_diag. reflexivity.
Qed.

Section HandlerFacts.

Variable host : Host.

Lemma spawn_log command args log :
  fst (spawn host command args log) = log ++ [ASpawn command args].
Proof.
  unfold spawn. destruct (ChildProcess_spawn host log command args) as [| |ch [[| |]|]|];
    reflexivity.
Qed.

Lemma spawnSquirrelUpdate_log command log :
  fst (spawnSquirrelUpdate host command log)
  = log ++ [ASpawn (updateDotExe host) [command; exeName host]].
Proof.
  unfold spawnSquirrelUpdate, bind.
  pose proof (spawn_log (updateDotExe host) [command; exeName host] log) as H.
  destruct (spawn host (updateDotExe host) [command; exeName host] log)
    as [l [s| |]]; exact H.
Qed.

Lemma writeCLITrampoline_resolved log log' binPath :
  writeCLITrampoline host log = (log', Resolved binPath) ->
  binPath = getBinPath host.
Proof.
  unfold writeCLITrampoline, bind, fsEnsureDir, fsWriteFile, ret.
  destruct (Fs_ensureDir host log (getBinPath host)); [discriminate|].
  match goal with |- context [Fs_writeFile host ?l ?p ?d] =>
    destruct (Fs_writeFile host l p d) end; [discriminate|].
  intros H; injection H; auto.
Qed.

End HandlerFacts.

(** ** The dispatcher and the spawner *)

(** C4: [handleSquirrelEvent] returns [null] for every event name other
    than the four tokens and a promise for each of the four; the promise
    for [--squirrel-obsolete] is already resolved and makes no call. *)
Theorem handleSquirrelEvent_dispatch (host : Host) (eventName : jsstring) :
  (handleSquirrelEvent host eventName = None <->
   ~ In eventName [js "--squirrel-install"; js "--squirrel-updated";
                   js "--squirrel-uninstall"; js "--squirrel-obsolete"]) /\
  handleSquirrelEvent host (js "--squirrel-install") = Some (createShortcut host) /\
  handleSquirrelEvent host (js "--squirrel-updated") = Some (handleUpdated host) /\
  handleSquirrelEvent host (js "--squirrel-uninstall") = Some (handleUninstall host) /\
  (exists done, handleSquirrelEvent host (js "--squirrel-obsolete") = Some done /\
                forall log, done log = (log, Resolved tt)).
Proof.
  split; [| repeat split; try reflexivity; exists (ret tt); split; reflexivity].
  unfold handleSquirrelEvent.
  destruct (str_eqb eventName (js "--squirrel-install")) eqn:E1;
    [apply str_eqb_spec in E1; subst eventName; split;
     [discriminate | intros H; exfalso; apply H; simpl; auto] |].
  destruct (str_eqb eventName (js "--squirrel-updated")) eqn:E2;
    [apply str_eqb_spec in E2; subst eventName; split;
     [discriminate | intros H; exfalso; apply H; simpl; auto] |].
  destruct (str_eqb eventName (js "--squirrel-uninstall")) eqn:E3;
    [apply str_eqb_spec in E3; subst eventName; split;
     [discriminate | intros H; exfalso; apply H; simpl; auto] |].
  destruct (str_eqb eventName (js "--squirrel-obsolete")) eqn:E4;
    [apply str_eqb_spec in E4; subst eventName; split;
     [discriminate | intros H; exfalso; apply H; simpl; auto] |].
  apply str_eqb_false in E1, E2, E3, E4.
  split; [intros _ | reflexivity].
  intros [H|[H|[H|[H|[]]]]]; symmetry in H; contradiction.
Qed.

(** C6: [spawn] resolves, with the captured output, exactly when the
    child closes with exit code 0; a child that closes with any other
    code rejects with [Command failed: ] followed by the output captured;
    a launch that throws or emits ['error'] rejects with that error. *)
Theorem spawn_settles (host : Host) (log : list action)
  (command : jsstring) (args : list jsstring) :
  (forall stdout,
      snd (spawn host command args log) = Resolved stdout <->
      exists chunks,
        ChildProcess_spawn host log command args = Closes chunks (Some 0%Z) /\
        stdout = concat chunks) /\
  (forall chunks code,
      ChildProcess_spawn host log command args = Closes chunks code ->
      code <> Some 0%Z ->
      snd (spawn host command args log)
      = Rejected (ErrorMessage (js "Command failed: " ++ concat chunks))) /\
  (forall err,
      ChildProcess_spawn host log command args = SpawnThrows err \/
      ChildProcess_spawn host log command args = EmitsError err ->
      snd (spawn host command args log) = Rejected err).
Proof.
  unfold spawn. split; [|split].
  - intros stdout.
    destruct (ChildProcess_spawn host log command args) as [e|e|chunks code|];
      simpl.
    + split; [discriminate | intros [ch [H _]]; discriminate].
    + split; [discriminate | intros [ch [H _]]; discriminate].
    + destruct code as [[|p|p]|]; simpl;
        (split; [intros H | intros [ch [H E]]]);
        try discriminate.
      * injection H as <-. exists chunks. auto.
      * injection H as <-. subst stdout. reflexivity.
    + split; [discriminate | intros [ch [H _]]; discriminate].
  - intros chunks code E Hc. rewrite E.
    destruct code as [[|p|p]|]; simpl; try reflexivity. congruence.
  - intros err [E|E]; rewrite E; reflexivity.
Qed.

(** ** Shortcuts *)

Lemma isCreateShortcut_create (host : Host) :
  isCreateShortcut host
    (ASpawn (updateDotExe host) [js "--createShortcut"; exeName host]) = true.
Proof.
  unfold isCreateShortcut. rewrite !str_eqb_refl. reflexivity.
Qed.

(** C7: [updateShortcut] makes no shortcut-creation call when the desktop
    shortcut does not exist, exactly one when it exists, and exactly one,
    without looking for the shortcut, when [Os.homedir()] is empty. *)
Theorem updateShortcut_invocations (host : Host) (log : list action) :
  let desktopShortcutPath :=
    Path_join host [Os_homedir host; js "Desktop"; js "GitHub Desktop.lnk"] in
  let create := ASpawn (updateDotExe host) [js "--createShortcut"; exeName host] in
  let calls := performed (updateShortcut host) log in
  (truthy (Os_homedir host) = true ->
   Fs_exists host log desktopShortcutPath = false ->
   calls = [AExists desktopShortcutPath] /\ shortcutCreations host calls = 0) /\
  (truthy (Os_homedir host) = true ->
   Fs_exists host log desktopShortcutPath = true ->
   calls = [AExists desktopShortcutPath; create] /\
   shortcutCreations host calls = 1) /\
  (truthy (Os_homedir host) = false ->
   calls = [create] /\ shortcutCreations host calls = 1).
Proof.
  intros p create calls. subst calls. unfold updateShortcut. fold p.
  split; [|split].
  - intros -> Hex.
    assert (E : performed
                  (exists_ <- fsExists host p;;
                   (if exists_ then createShortcut host else ret tt)) log
                = [AExists p]).
    { apply performed_app. unfold bind, fsExists. rewrite Hex. reflexivity. }
    rewrite E. split; reflexivity.
  - intros -> Hex.
    assert (E : performed
                  (exists_ <- fsExists host p;;
                   (if exists_ then createShortcut host else ret tt)) log
                = [AExists p; create]).
    { apply performed_app. unfold bind at 1. unfold fsExists. rewrite Hex.
      unfold createShortcut. rewrite spawnSquirrelUpdate_log.
      rewrite <- app_assoc. reflexivity. }
    rewrite E. split; [reflexivity|].
    unfold shortcutCreations, filter. subst create.
    rewrite isCreateShortcut_create. reflexivity.
  - intros ->.
    assert (E : performed (createShortcut host) log = [create]).
    { apply performed_app. apply spawnSquirrelUpdate_log. }
    rewrite E. split; [reflexivity|].
    unfold shortcutCreations, filter. subst create.
    rewrite isCreateShortcut_create. reflexivity.
Qed.

Lemma updateShortcut_invocations_witness :
  performed (updateShortcut (exampleHost home (js "C:\A") (Some 0%Z) false)) []
  = [AExists (js "C:\Users\me\Desktop\GitHub Desktop.lnk")] /\
  shortcutCreations (exampleHost home (js "C:\A") (Some 0%Z) false)
    (performed (updateShortcut (exampleHost home (js "C:\A") (Some 0%Z) false)) [])
  = 0.
Proof.
  apply (proj1 (updateShortcut_invocations
                  (exampleHost home (js "C:\A") (Some 0%Z) false) []));
    reflexivity.
Defined.

(** C9: handling [--squirrel-install] makes one call, the spawn of
    [Update.exe --createShortcut]; it is neither the PowerShell read of
    the user [Path], nor a [setx Path] write, nor a file-system call of
    the trampoline writer. *)
Theorem install_only_creates_shortcut (host : Host) (log : list action) :
  handleSquirrelEvent host (js "--squirrel-install") = Some (createShortcut host) /\
  performed (createShortcut host) log
  = [ASpawn (updateDotExe host) [js "--createShortcut"; exeName host]] /\
  Forall (fun a =>
            (forall command, a <> ASpawn command powershellArgs) /\
            (forall command paths,
                a <> ASpawn command [js "Path"; join [semicolon] paths]) /\
            (forall path data, a <> AWriteFile path data) /\
            (forall path, a <> AEnsureDir path))
         (performed (createShortcut host) log).
Proof.
  assert (E : performed (createShortcut host) log
              = [ASpawn (updateDotExe host) [js "--createShortcut"; exeName host]])
    by (apply performed_app; apply spawnSquirrelUpdate_log).
  split; [reflexivity|]. split; [exact E|]. rewrite E.
  constructor; [|constructor].
  repeat split; intros; intros H; discriminate H.
Qed.

(** ** Failure of a command stops the handler *)

Lemma elt_in_app {T} (e1 e2 pre post : list T) (x : T) :
  e1 ++ e2 = pre ++ x :: post ->
  (exists p1, e1 = pre ++ x :: p1 /\ post = p1 ++ e2) \/
  (exists pre2, pre = e1 ++ pre2 /\ e2 = pre2 ++ x :: post).
Proof.
  revert pre; induction e1 as [|y e1 IH]; intros pre E.
  - right. exists pre. auto.
  - destruct pre as [|z pre]; simpl in E; injection E as -> E.
    + left. exists e1. auto.
    + destruct (IH pre E) as [[p1 [-> ->]]|[pre2 [-> ->]]].
      * left. exists p1. auto.
      * right. exists pre2. auto.
Qed.

Section FailStopFacts.

Variable host : Host.

Lemma FailStop_ret {A} (a : A) : FailStop host (ret a).
Proof.
  intros log0. exists []. split; [symmetry; apply app_nil_r|].
  intros [|? ?] ? ? ? ? ? E; discriminate E.
Qed.

Lemma FailStop_bind {A B} (m : Async A) (f : A -> Async B) :
  FailStop host m -> (forall a, FailStop host (f a)) -> FailStop host (bind m f).
Proof.
  intros Hm Hf log0. destruct (Hm log0) as [e1 [E1 F1]]. unfold bind.
  destruct (m log0) as [l1 r1]. simpl in E1, F1. subst l1.
  destruct r1 as [a|e|].
  - destruct (Hf a (log0 ++ e1)) as [e2 [E2 F2]].
    exists (e1 ++ e2). split; [rewrite E2; symmetry; apply app_assoc|].
    intros pre command args post chunks code E Hch Hcode.
    destruct (@elt_in_app _ _ _ _ _ _ E) as [[p1 [-> ->]]|[pre2 [-> ->]]].
    + destruct (F1 pre command args p1 chunks code eq_refl Hch Hcode) as [_ Hr].
      discriminate Hr.
    + apply (F2 pre2 command args post chunks code eq_refl); [|exact Hcode].
      rewrite <- app_assoc. exact Hch.
  - exists e1. split; [reflexivity|].
    intros pre command args post chunks code E Hch Hcode.
    destruct (F1 pre command args post chunks code E Hch Hcode) as [Hp Hr].
    split; [exact Hp|]. injection Hr as ->. reflexivity.
  - exists e1. split; [reflexivity|].
    intros pre command args post chunks code E Hch Hcode.
    destruct (F1 pre command args post chunks code E Hch Hcode) as [_ Hr].
    discriminate Hr.
Qed.

Lemma FailStop_spawn command args : FailStop host (spawn host command args).
Proof.
  intros log0. exists [ASpawn command args]. split; [apply spawn_log|].
  intros pre c a post chunks code E Hch Hcode.
  destruct pre as [|x pre]; [|destruct pre; discriminate E].
  injection E as <- <- <-. split; [reflexivity|].
  rewrite app_nil_r in Hch. unfold spawn. rewrite Hch.
  destruct code as [[|p|p]|]; try reflexivity. congruence.
Qed.

Lemma FailStop_fsExists path : FailStop host (fsExists host path).
Proof.
  intros log0. exists [AExists path]. split; [reflexivity|].
  intros [|? [|? ?]] ? ? ? ? ? E; discriminate E.
Qed.

Lemma FailStop_fsEnsureDir path : FailStop host (fsEnsureDir host path).
Proof.
  intros log0. exists [AEnsureDir path]. split; [reflexivity|].
  intros [|? [|? ?]] ? ? ? ? ? E; discriminate E.
Qed.

Lemma FailStop_fsWriteFile path data : FailStop host (fsWriteFile host path data).
Proof.
  intros log0. exists [AWriteFile path data]. split; [reflexivity|].
  intros [|? [|? ?]] ? ? ? ? ? E; discriminate E.
Qed.

Create HintDb failstop.

#[local] Hint Resolve FailStop_ret FailStop_spawn FailStop_fsExists FailStop_fsEnsureDir
  FailStop_fsWriteFile : failstop.

Ltac failstop :=
  repeat first
    [ apply FailStop_bind; [|intros ?]
    | solve [auto with failstop]
    | match goal with |- FailStop _ (if ?b then _ else _) => destruct b end ].

Lemma FailStop_spawnSquirrelUpdate command :
  FailStop host (spawnSquirrelUpdate host command).
Proof. unfold spawnSquirrelUpdate. failstop. Qed.

Lemma FailStop_updateShortcut : FailStop host (updateShortcut host).
Proof.
  unfold updateShortcut, createShortcut.
  pose proof FailStop_spawnSquirrelUpdate. failstop; auto.
Qed.

Lemma FailStop_writeCLITrampoline : FailStop host (writeCLITrampoline host).
Proof. unfold writeCLITrampoline. failstop. Qed.

Lemma FailStop_getPathSegments : FailStop host (getPathSegments host).
Proof. unfold getPathSegments. failstop. Qed.

Lemma FailStop_setPathSegments paths : FailStop host (setPathSegments host paths).
Proof. unfold setPathSegments. failstop. Qed.

Lemma FailStop_handleUpdated : FailStop host (handleUpdated host).
Proof.
  unfold handleUpdated.
  apply FailStop_bind; [apply FailStop_updateShortcut | intros _].
  apply FailStop_bind; [apply FailStop_writeCLITrampoline | intros binPath].
  apply FailStop_bind; [apply FailStop_getPathSegments | intros paths].
  destruct (indexOf paths binPath <? 0)%Z;
    [apply FailStop_setPathSegments | apply FailStop_ret].
Qed.

Lemma FailStop_handleUninstall : FailStop host (handleUninstall host).
Proof.
  unfold handleUninstall, removeShortcut.
  apply FailStop_bind; [apply FailStop_spawnSquirrelUpdate | intros _].
  apply FailStop_bind; [apply FailStop_getPathSegments | intros paths].
  apply FailStop_setPathSegments.
Qed.

Lemma FailStop_handleSquirrelEvent eventName handler :
  handleSquirrelEvent host eventName = Some handler -> FailStop host handler.
Proof.
  unfold handleSquirrelEvent.
  repeat match goal with |- context [if ?b then _ else _] => destruct b end;
    intros E; try discriminate E; injection E as <-.
  - apply FailStop_spawnSquirrelUpdate.
  - apply FailStop_handleUpdated.
  - apply FailStop_handleUninstall.
  - apply FailStop_ret.
Qed.

End FailStopFacts.

(** C8: in each handler, a spawned command that exits with a status other
    than 0 is the last call the handler makes, and the handler's promise
    is rejected with that command's failure. *)
Theorem failed_command_stops_handler (host : Host) (eventName : jsstring)
  (handler : Async unit) :
  handleSquirrelEvent host eventName = Some handler ->
  forall log0 pre command args post chunks code,
    fst (handler log0) = log0 ++ pre ++ ASpawn command args :: post ->
    ChildProcess_spawn host (log0 ++ pre) command args = Closes chunks code ->
    code <> Some 0%Z ->
    post = [] /\
    snd (handler log0)
    = Rejected (ErrorMessage (js "Command failed: " ++ concat chunks)).
Proof.
  intros Hh log0 pre command args post chunks code E Hch Hcode.
  destruct (@FailStop_handleSquirrelEvent host eventName handler Hh log0) as [ext [E' F]].
  rewrite E' in E. apply app_inv_head in E.
  exact (F pre command args post chunks code E Hch Hcode).
Qed.

Lemma failed_command_stops_handler_witness :
  snd (handleUninstall (exampleHost home (js "C:\A") (Some 1%Z) true) [])
  = Rejected (ErrorMessage (js "Command failed: " ++ js "C:\A" ++ [13; 10]%N)).
Proof.
  refine (proj2 (@failed_command_stops_handler
                   (exampleHost home (js "C:\A") (Some 1%Z) true)
                   (js "--squirrel-uninstall")
                   (handleUninstall (exampleHost home (js "C:\A") (Some 1%Z) true))
                   eq_refl []
                   [ASpawn (js "C:\Update.exe")
                           [js "--removeShortcut"; js "GitHubDesktop.exe"]]
                   (js "C:\Windows\System32\WindowsPowerShell\v1.0\powershell.exe")
                   powershellArgs [] [js "C:\A"; [13; 10]%N] (Some 1%Z) _ _ _)).
  - reflexivity.
  - reflexivity.
  - discriminate.
Defined.

(** ** The user [Path] *)

Lemma withoutBinPath_absent (paths : list jsstring) (binPath : jsstring) :
  ~ In binPath (withoutBinPath paths binPath).
Proof.
  unfold withoutBinPath. intros H. apply filter_In in H. destruct H as [_ H].
  rewrite str_eqb_refl in H. discriminate.
Qed.

Lemma withoutBinPath_unchanged (paths : list jsstring) (binPath : jsstring) :
  ~ In binPath paths -> withoutBinPath paths binPath = paths.
Proof.
  induction paths as [|p paths IH]; simpl; intros H; [reflexivity|].
  destruct (str_eqb p binPath) eqn:E.
  - apply str_eqb_spec in E. tauto.
  - simpl. rewrite IH by tauto. reflexivity.
Qed.

Lemma withoutBinPath_occurrence (before after : list jsstring) (binPath : jsstring) :
  ~ In binPath before ->
  withoutBinPath (before ++ binPath :: after) binPath
  = before ++ withoutBinPath after binPath.
Proof.
  intros H. unfold withoutBinPath. rewrite filter_app. simpl.
  rewrite str_eqb_refl. simpl. f_equal.
  apply withoutBinPath_unchanged. exact H.
Qed.

Lemma setPathSegments_log (host : Host) (paths : list jsstring) log :
  fst (setPathSegments host paths log)
  = log ++ [ASpawn (setxPath host) [js "Path"; join [semicolon] paths]].
Proof.
  unfold setPathSegments, bind.
  pose proof (spawn_log host (setxPath host) [js "Path"; join [semicolon] paths] log) as H.
  destruct (spawn host (setxPath host) [js "Path"; join [semicolon] paths] log)
    as [l [s| |]]; exact H.
Qed.

(** C1, as the code has it: once the shortcut is removed and the user
    [Path] is read, [handleUninstall] writes back, whether or not anything
    was removed, the segments read without every entry equal to the bin
    directory, the other segments in their order; when the bin directory
    occurs once, exactly that entry is removed, and
    [["C:\A"; "C:\bin"; "C:\B"]] becomes [["C:\A"; "C:\B"]]. *)
Theorem handleUninstall_removes_every_occurrence (host : Host)
  (log0 log1 log2 : list action) (paths : list jsstring) :
  removeShortcut host log0 = (log1, Resolved tt) ->
  getPathSegments host log1 = (log2, Resolved paths) ->
  let binPath := getBinPath host in
  let written := withoutBinPath paths binPath in
  fst (handleUninstall host log0)
  = log2 ++ [ASpawn (setxPath host) [js "Path"; join [semicolon] written]] /\
  ~ In binPath written /\
  (~ In binPath paths -> written = paths) /\
  (forall before after,
      paths = before ++ binPath :: after -> ~ In binPath before ->
      written = before ++ withoutBinPath after binPath) /\
  (forall before after,
      paths = before ++ binPath :: after ->
      ~ In binPath before -> ~ In binPath after ->
      written = before ++ after) /\
  withoutBinPath [js "C:\A"; js "C:\bin"; js "C:\B"] (js "C:\bin")
  = [js "C:\A"; js "C:\B"].
Proof.
  intros Hr Hg binPath written.
  split; [|split; [|split; [|split; [|split]]]].
  - unfold handleUninstall.
    rewrite (bind_resolved _ _ _ _ _ Hr), (bind_resolved _ _ _ _ _ Hg).
    apply setPathSegments_log.
  - apply withoutBinPath_absent.
  - apply withoutBinPath_unchanged.
  - intros before after -> H. apply withoutBinPath_occurrence. exact H.
  - intros before after -> H H'. subst written.
    rewrite withoutBinPath_occurrence by exact H.
    rewrite withoutBinPath_unchanged by exact H'. reflexivity.
  - reflexivity.
Qed.

Lemma handleUninstall_removes_every_occurrence_witness :
  fst (handleUninstall (exampleHost home (js "C:\A;C:\bin;C:\B") (Some 0%Z) true) [])
  = [ASpawn (js "C:\Update.exe") [js "--removeShortcut"; js "GitHubDesktop.exe"];
     ASpawn (js "C:\Windows\System32\WindowsPowerShell\v1.0\powershell.exe")
            powershellArgs]
    ++ [ASpawn (js "C:\Windows\System32\setx.exe") [js "Path"; js "C:\A;C:\B"]].
Proof.
  refine (proj1 (handleUninstall_removes_every_occurrence
                   (exampleHost home (js "C:\A;C:\bin;C:\B") (Some 0%Z) true)
                   [] _ _ [js "C:\A"; js "C:\bin"; js "C:\B"] _ _));
    reflexivity.
Defined.

(** C1 as stated fails: from two entries equal to the bin directory,
    both are removed, so the result is not the input less one occurrence. *)
Lemma uninstall_removes_more_than_one_occurrence :
  In (js "C:\bin") [js "C:\bin"; js "C:\bin"] /\
  withoutBinPath [js "C:\bin"; js "C:\bin"] (js "C:\bin") = [] /\
  last (fst (handleUninstall
               (exampleHost home (js "C:\bin;C:\bin") (Some 0%Z) true) []))
       (AExists [])
  = ASpawn (js "C:\Windows\System32\setx.exe") [js "Path"; []] /\
  ~ (exists before after,
        [js "C:\bin"; js "C:\bin"] = before ++ js "C:\bin" :: after /\
        withoutBinPath [js "C:\bin"; js "C:\bin"] (js "C:\bin")
        = before ++ after).
Proof.
  split; [left; reflexivity|]. split; [reflexivity|]. split; [reflexivity|].
  intros (before & after & E & W).
  change (withoutBinPath [js "C:\bin"; js "C:\bin"] (js "C:\bin"))
    with (@nil jsstring) in W.
  symmetry in W. apply app_eq_nil in W. destruct W as [-> ->].
  discriminate E.
Qed.

Section Updated.

Variable host : Host.
Variables log0 log1 log2 log3 : list action.
Variable binPath : jsstring.
Variable paths : list jsstring.

Hypothesis shortcut_done : updateShortcut host log0 = (log1, Resolved tt).
Hypothesis trampoline_done : writeCLITrampoline host log1 = (log2, Resolved binPath).
Hypothesis path_read : getPathSegments host log2 = (log3, Resolved paths).

Lemma handleUpdated_last_step :
  handleUpdated host log0
  = (if (indexOf paths binPath <? 0)%Z
     then setPathSegments host (paths ++ [binPath])
     else ret tt) log3.
Proof.
  unfold handleUpdated.
  rewrite (bind_resolved _ _ _ _ _ shortcut_done).
  rewrite (bind_resolved _ _ _ _ _ trampoline_done).
  rewrite (bind_resolved _ _ _ _ _ path_read).
  reflexivity.
Qed.

Lemma handleUpdated_present :
  In binPath paths -> handleUpdated host log0 = (log3, Resolved tt).
Proof.
  intros H. rewrite handleUpdated_last_step.
  apply indexOf_nonnegative in H. rewrite H. reflexivity.
Qed.

Lemma handleUpdated_missing :
  ~ In binPath paths ->
  fst (handleUpdated host log0)
  = log3 ++ [ASpawn (setxPath host)
                    [js "Path"; join [semicolon] (paths ++ [binPath])]].
Proof.
  intros H. rewrite handleUpdated_last_step.
  apply indexOf_negative in H. rewrite H. apply setPathSegments_log.
Qed.

End Updated.

Lemma segmentsAfterUpdated_present (paths : list jsstring) (binPath : jsstring) :
  In binPath paths -> segmentsAfterUpdated paths binPath = paths.
Proof.
  intros H. unfold segmentsAfterUpdated.
  apply indexOf_nonnegative in H. rewrite H. reflexivity.
Qed.

Lemma segmentsAfterUpdated_missing (paths : list jsstring) (binPath : jsstring) :
  ~ In binPath paths -> segmentsAfterUpdated paths binPath = paths ++ [binPath].
Proof.
  intros H. unfold segmentsAfterUpdated.
  apply indexOf_negative in H. rewrite H. reflexivity.
Qed.

Lemma segmentsAfterUpdated_has_binPath (paths : list jsstring) (binPath : jsstring) :
  In binPath (segmentsAfterUpdated paths binPath).
Proof.
  destruct (in_dec (list_eq_dec N.eq_dec) binPath paths) as [i|n].
  - rewrite segmentsAfterUpdated_present; assumption.
  - rewrite segmentsAfterUpdated_missing by assumption.
    apply in_or_app. right. left. reflexivity.
Qed.

(** C2: once the shortcut and the trampoline are refreshed and the user
    [Path] is read, [handleUpdated] makes no further call when the bin
    directory is among the segments read, and otherwise writes the
    segments with the bin directory appended; the segments it leaves are
    left unchanged by a second application, and a second run that reads
    them writes nothing. *)
Theorem handleUpdated_idempotent (host : Host)
  (log0 log1 log2 log3 : list action) (binPath : jsstring)
  (paths : list jsstring) :
  updateShortcut host log0 = (log1, Resolved tt) ->
  writeCLITrampoline host log1 = (log2, Resolved binPath) ->
  getPathSegments host log2 = (log3, Resolved paths) ->
  let after := segmentsAfterUpdated paths binPath in
  (In binPath paths ->
   handleUpdated host log0 = (log3, Resolved tt) /\ after = paths) /\
  (~ In binPath paths ->
   fst (handleUpdated host log0)
   = log3 ++ [ASpawn (setxPath host) [js "Path"; join [semicolon] after]] /\
   after = paths ++ [binPath]) /\
  segmentsAfterUpdated after binPath = after /\
  (forall log0' log1' log2' log3',
      updateShortcut host log0' = (log1', Resolved tt) ->
      writeCLITrampoline host log1' = (log2', Resolved binPath) ->
      getPathSegments host log2' = (log3', Resolved after) ->
      handleUpdated host log0' = (log3', Resolved tt)).
Proof.
  intros Hs Ht Hp after. subst after.
  split; [|split; [|split]].
  - intros H. split.
    + exact (handleUpdated_present _ _ _ _ _ _ _ Hs Ht Hp H).
    + apply segmentsAfterUpdated_present. exact H.
  - intros H. rewrite (segmentsAfterUpdated_missing _ _ H). split.
    + exact (handleUpdated_missing _ _ _ _ _ _ _ Hs Ht Hp H).
    + reflexivity.
  - apply segmentsAfterUpdated_present. apply segmentsAfterUpdated_has_binPath.
  - intros l0 l1 l2 l3 Hs' Ht' Hp'.
    apply (handleUpdated_present _ _ _ _ _ _ _ Hs' Ht' Hp').
    apply segmentsAfterUpdated_has_binPath.
Qed.

Lemma handleUpdated_idempotent_witness :
  let host := exampleHost home (js "C:\A;C:\bin") (Some 0%Z) true in
  let log1 := fst (updateShortcut host []) in
  let log2 := fst (writeCLITrampoline host log1) in
  let log3 := fst (getPathSegments host log2) in
  handleUpdated host [] = (log3, Resolved tt).
Proof.
  intros host log1 log2 log3.
  refine (proj1 (proj1 (handleUpdated_idempotent
                   host [] log1 log2 log3 (js "C:\bin")
                   [js "C:\A"; js "C:\bin"] _ _ _) _));
    [reflexivity | reflexivity | reflexivity | right; left; reflexivity].
Defined.

(** C3: once the shortcut and the trampoline are refreshed and the user
    [Path] is read, and the bin directory is not among the segments read,
    the next and last call of [handleUpdated] is [setx Path] with the
    segments read, in their order, followed by the bin directory; from
    [["C:\A"]] and [C:\bin] the value written is [C:\A;C:\bin]. *)
Theorem handleUpdated_appends_binPath (host : Host)
  (log0 log1 log2 log3 : list action) (binPath : jsstring)
  (paths : list jsstring) :
  updateShortcut host log0 = (log1, Resolved tt) ->
  writeCLITrampoline host log1 = (log2, Resolved binPath) ->
  getPathSegments host log2 = (log3, Resolved paths) ->
  ~ In binPath paths ->
  binPath = getBinPath host /\
  fst (handleUpdated host log0)
  = log3 ++ [ASpawn (setxPath host)
                    [js "Path"; join [semicolon] (paths ++ [binPath])]] /\
  join [semicolon] ([js "C:\A"] ++ [js "C:\bin"]) = js "C:\A;C:\bin".
Proof.
  intros Hs Ht Hp H. split; [|split].
  - exact (writeCLITrampoline_resolved _ _ _ _ Ht).
  - exact (handleUpdated_missing _ _ _ _ _ _ _ Hs Ht Hp H).
  - reflexivity.
Qed.

Lemma handleUpdated_appends_binPath_witness :
  let host := exampleHost home (js "C:\A") (Some 0%Z) true in
  let log1 := fst (updateShortcut host []) in
  let log2 := fst (writeCLITrampoline host log1) in
  let log3 := fst (getPathSegments host log2) in
  fst (handleUpdated host [])
  = log3 ++ [ASpawn (js "C:\Windows\System32\setx.exe")
                    [js "Path"; js "C:\A;C:\bin"]].
Proof.
  intros host log1 log2 log3.
  refine (proj1 (proj2 (handleUpdated_appends_binPath
                   host [] log1 log2 log3 (js "C:\bin") [js "C:\A"] _ _ _ _)));
    [reflexivity | reflexivity | reflexivity |].
  intros [H|[]]. discriminate H.
Defined.

(** * Further properties of the reader and the writer *)

(** ** White space around the captured output *)

Lemma dropWhile_all (p : jschar -> bool) (s : jsstring) :
  Forall (fun c => p c = true) s -> dropWhile p s = [].
Proof. induction 1 as [|c s Hc _ IH]; simpl; [reflexivity | rewrite Hc; exact IH]. Qed.

Lemma dropWhile_app (p : jschar -> bool) (s t : jsstring) :
  dropWhile p (s ++ t)
  = match dropWhile p s with [] => dropWhile p t | _ :: _ => dropWhile p s ++ t end.
Proof.
  induction s as [|c s IH]; simpl; [reflexivity|].
  destruct (p c); [exact IH | reflexivity].
Qed.

Lemma dropWhile_app_all (p : jschar -> bool) (lead s : jsstring) :
  Forall (fun c => p c = true) lead -> dropWhile p (lead ++ s) = dropWhile p s.
Proof. intros H. rewrite dropWhile_app, (dropWhile_all _ _ H). reflexivity. Qed.

Lemma trim_outer (lead s trail : jsstring) :
  Forall (fun c => isWhiteSpace c = true) lead ->
  Forall (fun c => isWhiteSpace c = true) trail ->
  trimOuterWhiteSpace (lead ++ s ++ trail) = trimOuterWhiteSpace s.
Proof.
  intros Hl Ht. unfold trimOuterWhiteSpace.
  rewrite (dropWhile_app_all _ _ _ Hl), dropWhile_app.
  destruct (dropWhile isWhiteSpace s) as [|c r] eqn:E.
  - rewrite (dropWhile_all _ _ Ht). reflexivity.
  - rewrite rev_app_distr, dropWhile_app_all; [reflexivity|].
    apply Forall_rev. exact Ht.
Qed.

Lemma parse_outer (lead s trail : jsstring) :
  Forall (fun c => isWhiteSpace c = true) lead ->
  Forall (fun c => isWhiteSpace c = true) trail ->
  parsePathOutput (lead ++ s ++ trail) = parsePathOutput s.
Proof.
  intros Hl Ht. unfold parsePathOutput. rewrite (trim_outer _ _ _ Hl Ht).
  reflexivity.
Qed.

(** X1: white space before and after the captured output, such as the
    line break [Console.WriteLine] adds, does not change the segments
    read, and trimming twice changes nothing more. *)
Theorem parsePathOutput_ignores_outer_whitespace (lead stdout trail : jsstring) :
  Forall (fun c => isWhiteSpace c = true) lead ->
  Forall (fun c => isWhiteSpace c = true) trail ->
  parsePathOutput (lead ++ stdout ++ trail) = parsePathOutput stdout /\
  trimOuterWhiteSpace (lead ++ stdout ++ trail) = trimOuterWhiteSpace stdout /\
  trimOuterWhiteSpace (trimOuterWhiteSpace stdout) = trimOuterWhiteSpace stdout.
Proof.
  intros Hl Ht. split; [exact (parse_outer _ _ _ Hl Ht)|].
  split; [exact (trim_outer _ _ _ Hl Ht)|].
  apply trim_fixed; apply trim_ends.
Qed.

Lemma parsePathOutput_ignores_outer_whitespace_witness :
  parsePathOutput (js "  " ++ js "C:\A; C:\B" ++ [13; 10]%N)
  = parsePathOutput (js "C:\A; C:\B").
Proof.
  apply (proj1 (parsePathOutput_ignores_outer_whitespace
                  (js "  ") (js "C:\A; C:\B") [13; 10]%N
                  ltac:(repeat constructor) ltac:(repeat constructor))).
Defined.

(** ** An empty user [Path] *)

Lemma separated_none (s : jsstring) :
  SemicolonSeparated s [] <-> Forall (fun c => c = semicolon) s.
Proof.
  split.
  - intros H. remember (@nil jsstring) as segs eqn:E.
    induction H as [|s segs H IH|]; [constructor | | discriminate].
    constructor; [reflexivity | exact (IH E)].
  - induction 1 as [|c s -> _ IH]; constructor. exact IH.
Qed.

(** X2: no segment is read exactly when the output, once trimmed, is
    empty or made of semicolons only; in particular from an output of
    white space only, and then [handleUpdated] would write the bin
    directory alone. *)
Theorem parsePathOutput_empty (stdout : jsstring) :
  (parsePathOutput stdout = [] <->
   Forall (fun c => c = semicolon) (trimOuterWhiteSpace stdout)) /\
  (Forall (fun c => isWhiteSpace c = true) stdout -> parsePathOutput stdout = []) /\
  (forall binPath,
      parsePathOutput stdout = [] ->
      join [semicolon] (parsePathOutput stdout ++ [binPath]) = binPath).
Proof.
  pose proof (split_separated (trimOuterWhiteSpace stdout)) as HS.
  fold (parsePathOutput stdout) in HS.
  split; [|split].
  - rewrite <- separated_none. split.
    + intros E. rewrite E in HS. exact HS.
    + intros H. exact (separated_functional _ _ _ HS H).
  - intros H.
    pose proof (parse_outer [] [] stdout (Forall_nil _) H) as E.
    simpl in E. rewrite E. reflexivity.
  - intros binPath ->. reflexivity.
Qed.

(** ** What the parse keeps *)

Lemma concat_split (s : jsstring) :
  concat (splitSemicolons s) = filter notSemicolon s.
Proof.
  induction s as [|c s IH]; [reflexivity|].
  simpl. unfold notSemicolon at 1. destruct (N.eqb c semicolon) eqn:Ec; simpl.
  - destruct s as [|c' s']; [reflexivity|].
    destruct (N.eqb c' semicolon); exact IH.
  - destruct (split_first s) as (piece & rest & E & _).
    rewrite E in *. simpl in *. rewrite IH. reflexivity.
Qed.

Lemma concat_nonEmpty (l : list jsstring) :
  concat (filter nonEmpty l) = concat l.
Proof.
  induction l as [|x l IH]; [reflexivity|].
  simpl. destruct x as [|c x]; simpl; rewrite IH; reflexivity.
Qed.

(** X3: the segments read, put end to end, are the trimmed output
    without its semicolons: the parse drops no other character and
    changes no order. *)
Theorem parsePathOutput_keeps_characters (stdout : jsstring) :
  concat (parsePathOutput stdout)
  = filter notSemicolon (trimOuterWhiteSpace stdout).
Proof.
  unfold parsePathOutput. rewrite concat_nonEmpty. apply concat_split.
Qed.

(** ** Reading back what was written *)

Lemma join_snoc (sep b : jsstring) (paths : list jsstring) :
  paths <> [] -> join sep (paths ++ [b]) = join sep paths ++ sep ++ b.
Proof.
  induction paths as [|x [|y rest] IH]; intros H; [tauto | reflexivity |].
  change (join sep ((x :: y :: rest) ++ [b]))
    with (x ++ sep ++ join sep ((y :: rest) ++ [b])).
  rewrite IH by discriminate. rewrite join_cons2, <- !app_assoc. reflexivity.
Qed.

Lemma join_starts_first (x : jsstring) (rest : list jsstring) :
  x <> [] ->
  startsWithWhiteSpace (join [semicolon] (x :: rest)) = startsWithWhiteSpace x.
Proof.
  intros H. destruct (join_head [semicolon] x rest H) as (c & t & E & r & Er).
  transitivity (startsWithWhiteSpace (c :: r)); [f_equal; exact Er|].
  subst x. reflexivity.
Qed.

Lemma join_ends_last (init : list jsstring) (z : jsstring) :
  z <> [] ->
  endsWithWhiteSpace (join [semicolon] (init ++ [z])) = endsWithWhiteSpace z.
Proof.
  intros H. destruct init as [|x init]; [reflexivity|].
  rewrite join_snoc by discriminate.
  rewrite app_assoc. apply endsWithWhiteSpace_app. exact H.
Qed.

Lemma parse_clean (s : jsstring) (segs : list jsstring) :
  startsWithWhiteSpace s = false -> endsWithWhiteSpace s = false ->
  splitSemicolons s = segs -> Forall (fun seg => seg <> []) segs ->
  parsePathOutput s = segs.
Proof.
  intros Hs He E F. unfold parsePathOutput.
  rewrite (trim_fixed _ Hs He), E. apply filter_nonEmpty. exact F.
Qed.

Lemma parse_join_ends (segs : list jsstring) :
  Forall (fun seg => seg <> [] /\ ~ In semicolon seg) segs ->
  startsWithWhiteSpace (hd [] segs) = false ->
  endsWithWhiteSpace (last segs []) = false ->
  parsePathOutput (join [semicolon] segs) = segs.
Proof.
  intros F Hs He. destruct segs as [|x rest]; [reflexivity|].
  assert (Hx : x <> []) by (inversion F; tauto).
  apply parse_clean.
  - rewrite join_starts_first by exact Hx. exact Hs.
  - assert (Hl : last (x :: rest) [] <> []).
    { assert (Hin : In (last (x :: rest) []) (x :: rest)).
      { destruct (exists_last (l := x :: rest)) as (i & z & E); [discriminate|].
        rewrite E, last_last. apply in_or_app. right. left. reflexivity. }
      rewrite Forall_forall in F. apply F in Hin. tauto. }
    rewrite (app_removelast_last (l := x :: rest) [] ltac:(discriminate)).
    rewrite join_ends_last by exact Hl. exact He.
  - apply split_join; [exact F | discriminate].
  - eapply Forall_impl; [|exact F]. simpl; tauto.
Qed.

(** X4: the value [setPathSegments] gives to [setx], printed back by
    PowerShell with white space around it, parses to the segments
    written, when no segment is empty or has a semicolon, the first does
    not start with white space and the last does not end with white
    space; white space inside or between the segments is kept. *)
Theorem written_path_reads_back (segs : list jsstring) (lead trail : jsstring) :
  Forall (fun seg => seg <> [] /\ ~ In semicolon seg) segs ->
  startsWithWhiteSpace (hd [] segs) = false ->
  endsWithWhiteSpace (last segs []) = false ->
  Forall (fun c => isWhiteSpace c = true) lead ->
  Forall (fun c => isWhiteSpace c = true) trail ->
  parsePathOutput (lead ++ join [semicolon] segs ++ trail) = segs.
Proof.
  intros F Hs He Hl Ht. rewrite (parse_outer _ _ _ Hl Ht).
  apply parse_join_ends; assumption.
Qed.

Lemma written_path_reads_back_witness :
  parsePathOutput
    ([] ++ join [semicolon] [js "C:\A "; js " C:\Program Files"; js "C:\bin"]
        ++ [13; 10]%N)
  = [js "C:\A "; js " C:\Program Files"; js "C:\bin"].
Proof.
  apply written_path_reads_back;
    try reflexivity; repeat constructor; try discriminate;
    (intros H; vm_compute in H; intuition discriminate).
Defined.

Lemma dropWhile_app_stop (p : jschar -> bool) (a b : jsstring) (c : jschar) :
  p c = false -> dropWhile p (a ++ c :: b) = dropWhile p a ++ c :: b.
Proof.
  intros H. rewrite dropWhile_app.
  destruct (dropWhile p a); [simpl; rewrite H|]; reflexivity.
Qed.

Lemma split_last_piece (a b : jsstring) :
  ~ In semicolon b ->
  exists first init, splitSemicolons (a ++ semicolon :: b) = first :: init ++ [b].
Proof.
  intros Hb. induction a as [|c a (first & init & IH)].
  - exists [], []. simpl app.
    destruct b as [|c' b']; [reflexivity|].
    change (splitSemicolons (semicolon :: c' :: b'))
      with (if N.eqb c' semicolon then splitSemicolons (c' :: b')
            else [] :: splitSemicolons (c' :: b')).
    destruct (N.eqb c' semicolon) eqn:E.
    + apply N.eqb_eq in E. subst c'. simpl in Hb. tauto.
    + rewrite (split_no_semicolon _ Hb). reflexivity.
  - simpl app. simpl splitSemicolons. rewrite IH.
    destruct (N.eqb c semicolon).
    + destruct (a ++ semicolon :: b) as [|c' r] eqn:E.
      * destruct a; discriminate E.
      * destruct (N.eqb c' semicolon).
        -- exists first, init. reflexivity.
        -- exists [], (first :: init). reflexivity.
    + exists (c :: first), init. reflexivity.
Qed.

Lemma parse_finds_last (paths : list jsstring) (b : jsstring) :
  b <> [] -> ~ In semicolon b ->
  startsWithWhiteSpace b = false -> endsWithWhiteSpace b = false ->
  In b (parsePathOutput (join [semicolon] (paths ++ [b]))).
Proof.
  intros Hne Hno Hs He. destruct paths as [|x rest].
  - simpl app. simpl join.
    rewrite (parse_clean b [b]); [left; reflexivity | assumption | assumption | |].
    + apply split_no_semicolon. exact Hno.
    + constructor; [exact Hne | constructor].
  - rewrite join_snoc by discriminate.
    set (P := join [semicolon] (x :: rest)). simpl app.
    unfold parsePathOutput, trimOuterWhiteSpace.
    rewrite dropWhile_app_stop by reflexivity.
    set (Q := dropWhile isWhiteSpace P).
    rewrite rev_app_distr. simpl rev. rewrite <- !app_assoc.
    rewrite dropWhile_fixed.
    + replace (rev (rev b ++ [semicolon] ++ rev Q)) with (Q ++ semicolon :: b)
        by (rewrite !rev_app_distr, !rev_involutive, <- app_assoc; reflexivity).
      destruct (split_last_piece Q b Hno) as (first & init & E).
      rewrite E. apply filter_In. split.
      * right. apply in_or_app. right. left. reflexivity.
      * destruct b; [tauto | reflexivity].
    + unfold endsWithWhiteSpace in He.
      destruct (rev b) as [|c r] eqn:E.
      * apply (f_equal (@rev jschar)) in E. rewrite rev_involutive in E. tauto.
      * exact He.
Qed.

(** * Further properties of the handlers *)

Section ReaderFacts.

Variable host : Host.

Lemma spawn_resolved command args log stdout :
  snd (spawn host command args log) = Resolved stdout ->
  exists chunks,
    ChildProcess_spawn host log command args = Closes chunks (Some 0%Z) /\
    stdout = concat chunks.
Proof.
  unfold spawn.
  destruct (ChildProcess_spawn host log command args) as [e|e|chunks code|];
    try discriminate.
  destruct code as [[|p|p]|]; try discriminate.
  simpl. intros H. injection H as <-. exists chunks. auto.
Qed.

Lemma getPathSegments_closes log chunks :
  ChildProcess_spawn host log (powershellPath host) powershellArgs
  = Closes chunks (Some 0%Z) ->
  getPathSegments host log
  = (log ++ [readCall host], Resolved (parsePathOutput (concat chunks))).
Proof.
  intros H. unfold getPathSegments, bind, spawn. rewrite H. reflexivity.
Qed.

Lemma getPathSegments_resolved log log' paths :
  getPathSegments host log = (log', Resolved paths) ->
  exists chunks,
    ChildProcess_spawn host log (powershellPath host) powershellArgs
    = Closes chunks (Some 0%Z) /\
    paths = parsePathOutput (concat chunks) /\
    log' = log ++ [readCall host].
Proof.
  unfold getPathSegments, bind.
  pose proof (spawn_log host (powershellPath host) powershellArgs log) as Hl.
  pose proof (spawn_resolved (powershellPath host) powershellArgs log) as Hr.
  destruct (spawn host (powershellPath host) powershellArgs log) as [l [s| |]];
    try discriminate.
  simpl in Hl, Hr. unfold ret. intros H. injection H as <- <-.
  destruct (Hr s eq_refl) as (chunks & Hc & ->).
  exists chunks. auto.
Qed.

Lemma read_segments log log' paths :
  getPathSegments host log = (log', Resolved paths) ->
  Forall (fun seg => seg <> [] /\ ~ In semicolon seg) paths.
Proof.
  intros H. destruct (getPathSegments_resolved _ _ _ H) as (chunks & _ & -> & _).
  apply (separated_segments (trimOuterWhiteSpace (concat chunks))).
  apply split_separated.
Qed.

Lemma never_a_segment log log' paths binPath :
  getPathSegments host log = (log', Resolved paths) ->
  binPath = [] \/ In semicolon binPath -> ~ In binPath paths.
Proof.
  intros H Hb Hin. pose proof (read_segments _ _ _ H) as F.
  rewrite Forall_forall in F. apply F in Hin. tauto.
Qed.

End ReaderFacts.

(** X5: when the earlier steps resolve and PowerShell prints, with white
    space after it, the value an earlier run of [handleUpdated] wrote,
    the handler ends at the read and writes nothing, provided the bin
    directory is not empty, has no semicolon and neither starts nor ends
    with white space; nothing is asked of the other segments. *)
Theorem handleUpdated_finds_written_binPath (host : Host)
  (log0 log1 log2 : list action) (binPath trail : jsstring)
  (paths chunks : list jsstring) :
  updateShortcut host log0 = (log1, Resolved tt) ->
  writeCLITrampoline host log1 = (log2, Resolved binPath) ->
  ChildProcess_spawn host log2 (powershellPath host) powershellArgs
  = Closes chunks (Some 0%Z) ->
  concat chunks = join [semicolon] (paths ++ [binPath]) ++ trail ->
  Forall (fun c => isWhiteSpace c = true) trail ->
  binPath <> [] -> ~ In semicolon binPath ->
  startsWithWhiteSpace binPath = false -> endsWithWhiteSpace binPath = false ->
  handleUpdated host log0 = (log2 ++ [readCall host], Resolved tt).
Proof.
  intros Hs Ht Hc Ho Hw Hne Hno Hst He.
  apply (handleUpdated_present host log0 log1 log2 (log2 ++ [readCall host])
           binPath (parsePathOutput (concat chunks)) Hs Ht).
  - apply getPathSegments_closes. exact Hc.
  - rewrite Ho.
    rewrite (parse_outer [] _ trail (Forall_nil _) Hw : parsePathOutput
               (join [semicolon] (paths ++ [binPath]) ++ trail) = _).
    apply parse_finds_last; assumption.
Qed.

Lemma handleUpdated_finds_written_binPath_witness :
  let host := exampleHost home (js " C:\A ;;C:\bin") (Some 0%Z) false in
  let log1 := fst (updateShortcut host []) in
  let log2 := fst (writeCLITrampoline host log1) in
  handleUpdated host [] = (log2 ++ [readCall host], Resolved tt).
Proof.
  intros host log1 log2.
  refine (handleUpdated_finds_written_binPath host [] log1 log2 (js "C:\bin")
            [13; 10]%N [js " C:\A "; []] [js " C:\A ;;C:\bin"; [13; 10]%N]
            _ _ _ _ _ _ _ _ _);
    try reflexivity; try discriminate.
  - repeat constructor.
  - intros H; vm_compute in H; intuition discriminate.
Defined.

(** X6: a bin directory that is empty or has a semicolon is never among
    the segments read, so, once the earlier steps resolve, [handleUpdated]
    writes the segments read with the bin directory appended on every
    run. *)
Theorem handleUpdated_always_appends_unreadable_binPath (host : Host)
  (log0 log1 log2 log3 : list action) (binPath : jsstring)
  (paths : list jsstring) :
  updateShortcut host log0 = (log1, Resolved tt) ->
  writeCLITrampoline host log1 = (log2, Resolved binPath) ->
  getPathSegments host log2 = (log3, Resolved paths) ->
  binPath = [] \/ In semicolon binPath ->
  ~ In binPath paths /\
  fst (handleUpdated host log0) = log3 ++ [writeCall host (paths ++ [binPath])].
Proof.
  intros Hs Ht Hp Hb.
  pose proof (never_a_segment host _ _ _ _ Hp Hb) as Hn.
  split; [exact Hn|].
  exact (handleUpdated_missing _ _ _ _ _ _ _ Hs Ht Hp Hn).
Qed.

Lemma handleUpdated_always_appends_unreadable_binPath_witness :
  let host := exampleHostFrom (js "C:\a;b\app-1.0.0\GitHubDesktop.exe")
                              (js "C:\A;C:\a;b\bin") in
  let log1 := fst (updateShortcut host []) in
  let log2 := fst (writeCLITrampoline host log1) in
  let log3 := fst (getPathSegments host log2) in
  fst (handleUpdated host [])
  = log3 ++ [ASpawn (js "setx.exe")
                    [js "Path"; js "C:\A;C:\a;b\bin;C:\a;b\bin"]].
Proof.
  intros host log1 log2 log3.
  refine (proj2 (handleUpdated_always_appends_unreadable_binPath
                   host [] log1 log2 log3 (js "C:\a;b\bin")
                   [js "C:\A"; js "C:\a"; js "b\bin"] _ _ _ _));
    try reflexivity.
  right. vm_compute. tauto.
Defined.

(** X7: for such a bin directory, once the shortcut is removed and the
    user [Path] is read, [handleUninstall] writes back the segments read,
    all of them. *)
Theorem handleUninstall_keeps_unreadable_binPath (host : Host)
  (log0 log1 log2 : list action) (paths : list jsstring) :
  removeShortcut host log0 = (log1, Resolved tt) ->
  getPathSegments host log1 = (log2, Resolved paths) ->
  getBinPath host = [] \/ In semicolon (getBinPath host) ->
  fst (handleUninstall host log0) = log2 ++ [writeCall host paths].
Proof.
  intros Hr Hp Hb.
  pose proof (never_a_segment host _ _ _ _ Hp Hb) as Hn.
  unfold handleUninstall.
  rewrite (bind_resolved _ _ _ _ _ Hr), (bind_resolved _ _ _ _ _ Hp).
  rewrite (withoutBinPath_unchanged _ _ Hn). apply setPathSegments_log.
Qed.

Lemma handleUninstall_keeps_unreadable_binPath_witness :
  let host := exampleHostFrom (js "C:\a;b\app-1.0.0\GitHubDesktop.exe")
                              (js "C:\A;C:\a;b\bin") in
  let log1 := fst (removeShortcut host []) in
  let log2 := fst (getPathSegments host log1) in
  fst (handleUninstall host [])
  = log2 ++ [ASpawn (js "setx.exe") [js "Path"; js "C:\A;C:\a;b\bin"]].
Proof.
  intros host log1 log2.
  refine (handleUninstall_keeps_unreadable_binPath
            host [] log1 log2 [js "C:\A"; js "C:\a"; js "b\bin"] _ _ _);
    try reflexivity.
  right. vm_compute. tauto.
Defined.

(** ** One call after the other *)

Lemma single_call {T} (pre post : list T) (a b : T) :
  [b] = pre ++ a :: post -> pre = [] /\ a = b /\ post = [].
Proof.
  destruct pre as [|x pre]; simpl; intros E.
  - injection E as -> <-. auto.
  - destruct pre; discriminate E.
Qed.

Section SequentialFacts.

Variable host : Host.

Lemma Sequential_ret {A} (a : A) : Sequential host (ret a).
Proof.
  intros log0. exists []. split; [symmetry; apply app_nil_r|]. split.
  - intros [|? ?] ? ? E; discriminate E.
  - simpl. intros [|? ?] ? E; discriminate E.
Qed.

Lemma Sequential_call {A} (m : Async A) (a : action) :
  (forall log, fst (m log) = log ++ [a]) ->
  (forall log,
      match snd (m log) with
      | Resolved _ => callResult host log a = Resolved tt
      | Rejected e => callResult host log a = Rejected e
      | Pending => callResult host log a = Pending
      end) ->
  Sequential host m.
Proof.
  intros Hl Hr log0. exists [a]. split; [apply Hl|]. split.
  - intros pre b post E Hp. apply single_call in E. tauto.
  - specialize (Hr log0). destruct (snd (m log0)) as [v|e|].
    + intros pre b E. apply single_call in E. destruct E as (-> & -> & _).
      rewrite app_nil_r. exact Hr.
    + exists [], a. rewrite app_nil_r. auto.
    + exists [], a. rewrite app_nil_r. auto.
Qed.

Lemma Sequential_spawn command args : Sequential host (spawn host command args).
Proof.
  apply Sequential_call with (a := ASpawn command args).
  - intros log. apply spawn_log.
  - intros log. unfold spawn, callResult.
    destruct (ChildProcess_spawn host log command args) as [e|e|chunks code|];
      try reflexivity.
    destruct code as [[|p|p]|]; reflexivity.
Qed.

Lemma Sequential_fsExists path : Sequential host (fsExists host path).
Proof.
  apply Sequential_call with (a := AExists path); intros log; reflexivity.
Qed.

Lemma Sequential_fsEnsureDir path : Sequential host (fsEnsureDir host path).
Proof.
  apply Sequential_call with (a := AEnsureDir path); intros log;
    [reflexivity|].
  unfold fsEnsureDir, callResult. simpl.
  destruct (Fs_ensureDir host log path); reflexivity.
Qed.

Lemma Sequential_fsWriteFile path data :
  Sequential host (fsWriteFile host path data).
Proof.
  apply Sequential_call with (a := AWriteFile path data); intros log;
    [reflexivity|].
  unfold fsWriteFile, callResult. simpl.
  destruct (Fs_writeFile host log path data); reflexivity.
Qed.

Lemma Sequential_bind {A B} (m : Async A) (f : A -> Async B) :
  Sequential host m -> (forall a, Sequential host (f a)) ->
  Sequential host (bind m f).
Proof.
  intros Hm Hf log0. destruct (Hm log0) as (e1 & E1 & M1 & L1). unfold bind.
  destruct (m log0) as [l1 r1]. simpl in E1, L1. subst l1.
  destruct r1 as [a|e|].
  - destruct (Hf a (log0 ++ e1)) as (e2 & E2 & M2 & L2).
    exists (e1 ++ e2). split; [rewrite E2; symmetry; apply app_assoc|].
    assert (Hlast : forall pre x post,
               e1 ++ e2 = pre ++ x :: post ->
               (post <> [] \/ exists v, snd (f a (log0 ++ e1)) = Resolved v) ->
               callResult host (log0 ++ pre) x = Resolved tt).
    { intros pre x post E Hp.
      destruct (@elt_in_app _ _ _ _ _ _ E) as [(p1 & -> & ->)|(pre2 & -> & ->)].
      - destruct p1 as [|y p1]; [apply L1; reflexivity|].
        apply (M1 pre x (y :: p1) eq_refl). discriminate.
      - rewrite app_assoc. destruct post as [|y post].
        + destruct Hp as [Hp|[v Hv]]; [tauto|].
          rewrite Hv in L2. apply L2. reflexivity.
        + apply (M2 pre2 x (y :: post) eq_refl). discriminate. }
    split.
    + intros pre x post E Hp. apply (Hlast pre x post E). left. exact Hp.
    + destruct (snd (f a (log0 ++ e1))) as [v|e|] eqn:Ef.
      * intros pre x E. apply (Hlast pre x [] E). right. exists v. reflexivity.
      * destruct L2 as (pre2 & x & -> & Hx). exists (e1 ++ pre2), x.
        rewrite !app_assoc in *. auto.
      * destruct L2 as (pre2 & x & -> & Hx). exists (e1 ++ pre2), x.
        rewrite !app_assoc in *. auto.
  - exists e1. simpl. auto.
  - exists e1. simpl. auto.
Qed.

Create HintDb sequential.

#[local] Hint Resolve Sequential_ret Sequential_spawn Sequential_fsExists
  Sequential_fsEnsureDir Sequential_fsWriteFile : sequential.

Ltac sequential :=
  repeat first
    [ apply Sequential_bind; [|intros ?]
    | solve [auto with sequential]
    | match goal with |- Sequential _ (if ?b then _ else _) => destruct b end ].

Lemma Sequential_spawnSquirrelUpdate command :
  Sequential host (spawnSquirrelUpdate host command).
Proof. unfold spawnSquirrelUpdate. sequential. Qed.

Lemma Sequential_updateShortcut : Sequential host (updateShortcut host).
Proof.
  unfold updateShortcut, createShortcut.
  pose proof Sequential_spawnSquirrelUpdate. sequential; auto.
Qed.

Lemma Sequential_writeCLITrampoline : Sequential host (writeCLITrampoline host).
Proof. unfold writeCLITrampoline. sequential. Qed.

Lemma Sequential_getPathSegments : Sequential host (getPathSegments host).
Proof. unfold getPathSegments. sequential. Qed.

Lemma Sequential_setPathSegments paths :
  Sequential host (setPathSegments host paths).
Proof. unfold setPathSegments. sequential. Qed.

Lemma Sequential_handleUpdated : Sequential host (handleUpdated host).
Proof.
  unfold handleUpdated.
  apply Sequential_bind; [apply Sequential_updateShortcut | intros _].
  apply Sequential_bind; [apply Sequential_writeCLITrampoline | intros binPath].
  apply Sequential_bind; [apply Sequential_getPathSegments | intros paths].
  destruct (indexOf paths binPath <? 0)%Z;
    [apply Sequential_setPathSegments | apply Sequential_ret].
Qed.

Lemma Sequential_handleUninstall : Sequential host (handleUninstall host).
Proof.
  unfold handleUninstall, removeShortcut.
  apply Sequential_bind; [apply Sequential_spawnSquirrelUpdate | intros _].
  apply Sequential_bind; [apply Sequential_getPathSegments | intros paths].
  apply Sequential_setPathSegments.
Qed.

Lemma Sequential_handleSquirrelEvent eventName handler :
  handleSquirrelEvent host eventName = Some handler -> Sequential host handler.
Proof.
  unfold handleSquirrelEvent.
  repeat match goal with |- context [if ?b then _ else _] => destruct b end;
    intros E; try discriminate E; injection E as <-.
  - apply Sequential_spawnSquirrelUpdate.
  - apply Sequential_handleUpdated.
  - apply Sequential_handleUninstall.
  - apply Sequential_ret.
Qed.

End SequentialFacts.

(** ** The calls of a run *)

Section RunFacts.

Variable host : Host.

Lemma spawnSquirrelUpdate_run command log :
  exists r, spawnSquirrelUpdate host command log
            = (log ++ [ASpawn (updateDotExe host) [command; exeName host]], r).
Proof.
  pose proof (spawnSquirrelUpdate_log host command log) as H.
  destruct (spawnSquirrelUpdate host command log) as [l r].
  exists r. simpl in H. rewrite H. reflexivity.
Qed.

Lemma updateShortcut_run log :
  exists S r,
    updateShortcut host log = (log ++ S, r) /\
    (S = [existsCall host] \/ S = [existsCall host; createCall host] \/
     S = [createCall host]).
Proof.
  unfold updateShortcut, createShortcut.
  destruct (truthy (Os_homedir host)).
  - unfold bind at 1. unfold fsExists. fold (existsCall host).
    destruct (Fs_exists host log _).
    + destruct (spawnSquirrelUpdate_run (js "--createShortcut")
                  (log ++ [existsCall host])) as [r E].
      exists [existsCall host; createCall host], r. rewrite E.
      rewrite <- app_assoc. auto.
    + exists [existsCall host], (Resolved tt). auto.
  - destruct (spawnSquirrelUpdate_run (js "--createShortcut") log) as [r E].
    exists [createCall host], r. auto.
Qed.

Lemma writeCLITrampoline_run log :
  exists T r,
    writeCLITrampoline host log = (log ++ T, r) /\
    ((T = [ensureDirCall host] /\ forall v, r <> Resolved v) \/
     (T = [ensureDirCall host; trampolineCall host] /\
      (forall v, r <> Resolved v)) \/
     (T = [ensureDirCall host; trampolineCall host] /\
      r = Resolved (getBinPath host))).
Proof.
  unfold writeCLITrampoline, bind, fsEnsureDir, fsWriteFile, ret.
  fold (ensureDirCall host).
  destruct (Fs_ensureDir host log (getBinPath host)).
  - exists [ensureDirCall host]. eexists. split; [reflexivity|].
    left. split; [reflexivity | discriminate].
  - match goal with |- context [Fs_writeFile host ?l ?p ?d] =>
      destruct (Fs_writeFile host l p d) end;
      exists [ensureDirCall host; trampolineCall host]; eexists;
      (split; [rewrite <- app_assoc; reflexivity|]).
    + right. left. split; [reflexivity | discriminate].
    + right. right. split; reflexivity.
Qed.

Lemma getPathSegments_run log :
  exists r,
    getPathSegments host log = (log ++ [readCall host], r) /\
    ((forall v, r <> Resolved v) \/
     exists chunks,
       ChildProcess_spawn host log (powershellPath host) powershellArgs
       = Closes chunks (Some 0%Z) /\
       r = Resolved (parsePathOutput (concat chunks))).
Proof.
  destruct (getPathSegments host log) as [l r] eqn:E.
  destruct r as [paths|e|].
  - destruct (getPathSegments_resolved host _ _ _ E) as (chunks & Hc & -> & ->).
    eexists. split; [reflexivity|]. right. exists chunks. auto.
  - assert (Hl : l = log ++ [readCall host]).
    { revert E. unfold getPathSegments, bind.
      pose proof (spawn_log host (powershellPath host) powershellArgs log) as H.
      destruct (spawn host (powershellPath host) powershellArgs log)
        as [l' [s| |]]; simpl in H; subst l'; intros E; injection E; auto. }
    subst l. eexists. split; [reflexivity|]. left. discriminate.
  - assert (Hl : l = log ++ [readCall host]).
    { revert E. unfold getPathSegments, bind.
      pose proof (spawn_log host (powershellPath host) powershellArgs log) as H.
      destruct (spawn host (powershellPath host) powershellArgs log)
        as [l' [s| |]]; simpl in H; subst l'; intros E; injection E; auto. }
    subst l. eexists. split; [reflexivity|]. left. discriminate.
Qed.

Lemma setPathSegments_run paths log :
  exists r, setPathSegments host paths log = (log ++ [writeCall host paths], r).
Proof.
  pose proof (setPathSegments_log host paths log) as H.
  destruct (setPathSegments host paths log) as [l r].
  exists r. simpl in H. rewrite H. reflexivity.
Qed.

Lemma handleUninstall_run log0 :
  exists ext r,
    handleUninstall host log0 = (log0 ++ ext, r) /\ UninstallRun host log0 ext r.
Proof.
  unfold handleUninstall, removeShortcut. unfold bind at 1.
  destruct (spawnSquirrelUpdate_run (js "--removeShortcut") log0) as [r1 E1].
  fold (removeCall host) in E1. rewrite E1.
  destruct r1 as [[]|e|];
    [| exists [removeCall host]; eexists; split;
       [reflexivity | constructor; discriminate] ..].
  unfold bind.
  destruct (getPathSegments_run (log0 ++ [removeCall host]))
    as (r2 & E2 & [Hn|(chunks & Hc & ->)]); rewrite E2.
  - exists [removeCall host; readCall host], (match r2 with
                                                 | Resolved _ => Pending
                                                 | Rejected e => Rejected e
                                                 | Pending => Pending end).
    rewrite <- app_assoc. split.
    + destruct r2 as [v|e|]; [destruct (Hn v eq_refl) | reflexivity ..].
    + constructor. destruct r2; discriminate.
  - destruct (setPathSegments_run
                (withoutBinPath (parsePathOutput (concat chunks)) (getBinPath host))
                ((log0 ++ [removeCall host]) ++ [readCall host])) as [r3 E3].
    rewrite E3. eexists. exists r3. split.
    + rewrite <- !app_assoc. reflexivity.
    + apply UR_write. exact Hc.
Qed.

Lemma handleUpdated_run log0 :
  exists S T r,
    handleUpdated host log0 = (log0 ++ S ++ T, r) /\
    (S = [existsCall host] \/ S = [existsCall host; createCall host] \/
     S = [createCall host]) /\
    UpdatedRun host log0 S T r.
Proof.
  unfold handleUpdated. unfold bind at 1.
  destruct (updateShortcut_run log0) as (S & r1 & E1 & HS). rewrite E1.
  exists S.
  destruct r1 as [[]|e|];
    [| exists []; eexists; rewrite app_nil_r;
       (split; [reflexivity | split; [exact HS | constructor; discriminate]]) ..].
  unfold bind at 1.
  destruct (writeCLITrampoline_run (log0 ++ S))
    as (T & r2 & E2 & [[-> Hn]|[[-> Hn]| [-> ->]]]); rewrite E2.
  - destruct r2 as [v|e|]; [destruct (Hn v eq_refl) | |];
      (exists [ensureDirCall host]; eexists; rewrite <- app_assoc;
       split; [reflexivity | split; [exact HS | apply UP_ensure; discriminate]]).
  - destruct r2 as [v|e|]; [destruct (Hn v eq_refl) | |];
      (exists [ensureDirCall host; trampolineCall host]; eexists;
       rewrite <- app_assoc;
       split; [reflexivity | split; [exact HS | apply UP_trampoline; discriminate]]).
  - unfold bind.
    destruct (getPathSegments_run
                ((log0 ++ S) ++ [ensureDirCall host; trampolineCall host]))
      as (r3 & E3 & [Hn|(chunks & Hc & ->)]); rewrite E3.
    + destruct r3 as [v|e|]; [destruct (Hn v eq_refl) | |];
        (exists [ensureDirCall host; trampolineCall host; readCall host];
         eexists; rewrite <- !app_assoc;
         split; [reflexivity | split; [exact HS | apply UP_read; discriminate]]).
    + rewrite <- app_assoc in Hc.
      destruct (indexOf (parsePathOutput (concat chunks)) (getBinPath host) <? 0)%Z
        eqn:Ei.
      * apply indexOf_negative in Ei.
        destruct (setPathSegments_run
                    (parsePathOutput (concat chunks) ++ [getBinPath host])
                    (((log0 ++ S) ++ [ensureDirCall host; trampolineCall host])
                       ++ [readCall host])) as [r4 E4].
        rewrite E4. eexists. exists r4. split; [|split; [exact HS|]].
        -- rewrite <- !app_assoc. reflexivity.
        -- apply UP_write; assumption.
      * apply indexOf_nonnegative in Ei.
        exists [ensureDirCall host; trampolineCall host; readCall host]. eexists.
        split; [|split; [exact HS|]].
        -- rewrite <- !app_assoc. reflexivity.
        -- apply UP_present with (chunks := chunks); assumption.
Qed.

End RunFacts.

(** ** How a handler settles *)

(** X8: in every handler, each call but the last succeeded, the handler
    settles exactly as its last call did (rejected with that call's
    error, whether a failed launch, a non-zero exit or a file-system
    error; pending when the call never ends), and a handler that makes
    no call is resolved. *)
Theorem handler_settles_as_last_call (host : Host) (eventName : jsstring)
  (handler : Async unit) (log0 : list action) :
  handleSquirrelEvent host eventName = Some handler ->
  (forall pre a post,
      performed handler log0 = pre ++ a :: post -> post <> [] ->
      callResult host (log0 ++ pre) a = Resolved tt) /\
  (forall pre a,
      performed handler log0 = pre ++ [a] ->
      snd (handler log0) = callResult host (log0 ++ pre) a) /\
  (performed handler log0 = [] -> snd (handler log0) = Resolved tt).
Proof.
  intros Hh.
  destruct (Sequential_handleSquirrelEvent host eventName handler Hh log0)
    as (ext & E & M & L).
  rewrite (performed_app handler log0 ext E).
  split; [exact M|]. split.
  - intros pre a ->. destruct (snd (handler log0)) as [[]|e|].
    + symmetry. apply L. reflexivity.
    + destruct L as (pre' & a' & E' & H').
      apply app_inj_tail in E'. destruct E' as [-> ->]. symmetry. exact H'.
    + destruct L as (pre' & a' & E' & H').
      apply app_inj_tail in E'. destruct E' as [-> ->]. symmetry. exact H'.
  - intros ->. destruct (snd (handler log0)) as [[]|e|]; [reflexivity | |];
      destruct L as ([|? ?] & a' & E' & _); discriminate E'.
Qed.

Lemma handler_settles_as_last_call_witness :
  snd (handleUpdated
         (exampleHostAnswering (Some (SystemError (js "EPERM"))) NeverSettles) [])
  = Rejected (SystemError (js "EPERM")).
Proof.
  refine (proj1 (proj2 (handler_settles_as_last_call
            (exampleHostAnswering (Some (SystemError (js "EPERM"))) NeverSettles)
            (js "--squirrel-updated")
            (handleUpdated
               (exampleHostAnswering (Some (SystemError (js "EPERM"))) NeverSettles))
            [] eq_refl))
            [ASpawn (js "C:\Update.exe")
                    [js "--createShortcut"; js "GitHubDesktop.exe"]]
            (AEnsureDir (js "C:\bin")) _).
  reflexivity.
Defined.

(** ** The user [Path] is written only after it was read *)

Lemma only_position {T} (P : T -> Prop) (front pre post : list T) (w x : T) :
  Forall (fun a => ~ P a) front -> P x ->
  front ++ [w] = pre ++ x :: post ->
  pre = front /\ x = w /\ post = [].
Proof.
  intros F Hx. revert pre. induction F as [|y front Hy F IH]; intros pre E.
  - apply single_call in E. tauto.
  - destruct pre as [|z pre]; simpl in E; injection E as -> E.
    + tauto.
    + destruct (IH pre E) as (-> & -> & ->). auto.
Qed.

Lemma no_position {T} (P : T -> Prop) (l pre post : list T) (x : T) :
  Forall (fun a => ~ P a) l -> P x -> l = pre ++ x :: post -> False.
Proof.
  intros F Hx ->. rewrite Forall_forall in F.
  apply (F x); [apply in_or_app; right; left; reflexivity | exact Hx].
Qed.

Ltac not_path_write :=
  repeat constructor;
  intros (? & ? & H);
  unfold existsCall, createCall, removeCall, readCall, ensureDirCall,
    trampolineCall in H;
  discriminate H.

(** X9: in every handler, a [setx Path] call is the last call of the
    run and comes directly after the PowerShell read, which closed with
    exit code 0; the value written is made from the segments that read
    returned: all those different from the bin directory, or all of them
    followed by the bin directory when it was not among them. *)
Theorem path_write_follows_read (host : Host) (eventName : jsstring)
  (handler : Async unit) (log0 pre post : list action)
  (command value : jsstring) :
  handleSquirrelEvent host eventName = Some handler ->
  performed handler log0 = pre ++ ASpawn command [js "Path"; value] :: post ->
  post = [] /\ command = setxPath host /\
  exists before chunks,
    pre = before ++ [readCall host] /\
    ChildProcess_spawn host (log0 ++ before) (powershellPath host) powershellArgs
    = Closes chunks (Some 0%Z) /\
    (value = join [semicolon]
               (withoutBinPath (parsePathOutput (concat chunks)) (getBinPath host))
     \/ (~ In (getBinPath host) (parsePathOutput (concat chunks)) /\
         value = join [semicolon]
                   (parsePathOutput (concat chunks) ++ [getBinPath host]))).
Proof.
  assert (HP : isPathWrite (ASpawn command [js "Path"; value]))
    by (exists command, value; reflexivity).
  unfold handleSquirrelEvent.
  repeat match goal with |- context [if ?b then _ else _] => destruct b end;
    intros E; try discriminate E; injection E as <-.
  - rewrite (performed_app (createShortcut host) log0 _
               (spawnSquirrelUpdate_log host _ log0)).
    intros E. exfalso.
    refine (no_position isPathWrite _ _ _ _ _ HP E). not_path_write.
  - destruct (handleUpdated_run host log0) as (S & T & r & E & HS & HT).
    rewrite (performed_app (handleUpdated host) log0 (S ++ T)
               ltac:(rewrite E; reflexivity)).
    intros Eq.
    inversion HT as [r' Hn|r' Hn|r' Hn|r' Hn|chunks Hc Hin|chunks r' Hc Hin];
      subst;
      try (exfalso;
           destruct HS as [->|[->| ->]];
           refine (no_position isPathWrite _ _ _ _ _ HP Eq); not_path_write).
    change (S ++ [ensureDirCall host; trampolineCall host; readCall host;
                  writeCall host (parsePathOutput (concat chunks) ++ [getBinPath host])])
      with (S ++ [ensureDirCall host; trampolineCall host; readCall host]
              ++ [writeCall host (parsePathOutput (concat chunks) ++ [getBinPath host])])
      in Eq.
    rewrite app_assoc in Eq.
    apply (only_position isPathWrite) in Eq;
      [| destruct HS as [->|[->| ->]]; not_path_write | exact HP].
    destruct Eq as (-> & Hw & ->). injection Hw as -> ->.
    split; [reflexivity|]. split; [reflexivity|].
    exists (S ++ [ensureDirCall host; trampolineCall host]), chunks.
    split; [rewrite <- app_assoc; reflexivity|]. split; [exact Hc|].
    right. split; [exact Hin | reflexivity].
  - destruct (handleUninstall_run host log0) as (ext & r & E & HR).
    rewrite (performed_app (handleUninstall host) log0 ext
               ltac:(rewrite E; reflexivity)).
    intros Eq.
    destruct HR as [r Hn|r Hn|chunks r Hc];
      try (exfalso;
           refine (no_position isPathWrite _ _ _ _ _ HP Eq); not_path_write).
    apply (only_position isPathWrite [removeCall host; readCall host]) in Eq;
      [| not_path_write | exact HP].
    destruct Eq as (-> & Hw & ->). injection Hw as -> ->.
    split; [reflexivity|]. split; [reflexivity|].
    exists [removeCall host], chunks.
    split; [reflexivity|]. split; [exact Hc|]. left. reflexivity.
  - rewrite (performed_app (ret tt) log0 [] (eq_sym (app_nil_r log0))).
    intros Eq. destruct pre; discriminate Eq.
Qed.

Lemma path_write_follows_read_witness :
  [] = @nil action /\
  js "C:\Windows\System32\setx.exe"
  = setxPath (exampleHost home (js "C:\A;C:\bin;C:\B") (Some 0%Z) true).
Proof.
  pose proof (path_write_follows_read
                (exampleHost home (js "C:\A;C:\bin;C:\B") (Some 0%Z) true)
                (js "--squirrel-uninstall")
                (handleUninstall
                   (exampleHost home (js "C:\A;C:\bin;C:\B") (Some 0%Z) true))
                []
                [ASpawn (js "C:\Update.exe")
                        [js "--removeShortcut"; js "GitHubDesktop.exe"];
                 ASpawn (js "C:\Windows\System32\WindowsPowerShell\v1.0\powershell.exe")
                        powershellArgs]
                [] (js "C:\Windows\System32\setx.exe") (js "C:\A;C:\B")
                eq_refl eq_refl) as (H1 & H2 & _).
  split; [exact H1 | exact H2].
Defined.

(** ** Runs that resolve *)

Lemma all_calls_succeeded (host : Host) {A} (m : Async A) (log0 ext : list action) v :
  Sequential host m -> fst (m log0) = log0 ++ ext -> snd (m log0) = Resolved v ->
  forall pre a post,
    ext = pre ++ a :: post -> callResult host (log0 ++ pre) a = Resolved tt.
Proof.
  intros Hm E Hr pre a post Eq.
  destruct (Hm log0) as (ext' & E' & M & L).
  rewrite E in E'. apply app_inv_head in E'. subst ext'.
  rewrite Hr in L. destruct post as [|y post].
  - apply L. exact Eq.
  - apply (M pre a (y :: post) Eq). discriminate.
Qed.

(** X10: a run of [handleUninstall] that resolves made exactly three
    calls, each of which succeeded: [Update.exe --removeShortcut], the
    PowerShell read, and [setx Path] with the segments read that differ
    from the bin directory. *)
Theorem handleUninstall_resolved_run (host : Host) (log0 : list action) :
  snd (handleUninstall host log0) = Resolved tt ->
  exists chunks,
    performed (handleUninstall host) log0
    = [removeCall host; readCall host;
       writeCall host (withoutBinPath (parsePathOutput (concat chunks))
                                      (getBinPath host))] /\
    ChildProcess_spawn host (log0 ++ [removeCall host]) (powershellPath host)
                       powershellArgs = Closes chunks (Some 0%Z) /\
    forall pre a post,
      performed (handleUninstall host) log0 = pre ++ a :: post ->
      callResult host (log0 ++ pre) a = Resolved tt.
Proof.
  intros Hr.
  destruct (handleUninstall_run host log0) as (ext & r & E & HR).
  assert (Ef : fst (handleUninstall host log0) = log0 ++ ext)
    by (rewrite E; reflexivity).
  pose proof (all_calls_succeeded host (handleUninstall host) log0 ext tt
                (Sequential_handleUninstall host) Ef Hr) as Hall.
  rewrite E in Hr. simpl in Hr.
  rewrite (performed_app (handleUninstall host) log0 ext Ef).
  destruct HR as [r Hn|r Hn|chunks r Hc].
  - destruct (Hn tt Hr).
  - destruct (Hn tt Hr).
  - exists chunks. auto.
Qed.

Lemma handleUninstall_resolved_run_witness :
  exists chunks,
    performed (handleUninstall
                 (exampleHost home (js "C:\bin;C:\B") (Some 0%Z) true)) []
    = [removeCall (exampleHost home (js "C:\bin;C:\B") (Some 0%Z) true);
       readCall (exampleHost home (js "C:\bin;C:\B") (Some 0%Z) true);
       writeCall (exampleHost home (js "C:\bin;C:\B") (Some 0%Z) true)
         (withoutBinPath (parsePathOutput (concat chunks)) (js "C:\bin"))].
Proof.
  destruct (handleUninstall_resolved_run
              (exampleHost home (js "C:\bin;C:\B") (Some 0%Z) true) [] eq_refl)
    as (chunks & H & _).
  exists chunks. exact H.
Defined.

(** X11: a run of [handleUpdated] that resolves made, in this order and
    all with success: the calls of [updateShortcut], the creation of the
    bin directory, the write of the trampoline, the PowerShell read, and
    then either nothing more, the bin directory being among the segments
    read, or [setx Path] with those segments and the bin directory. *)
Theorem handleUpdated_resolved_run (host : Host) (log0 : list action) :
  snd (handleUpdated host log0) = Resolved tt ->
  exists S chunks tail,
    performed (handleUpdated host) log0
    = S ++ [ensureDirCall host; trampolineCall host; readCall host] ++ tail /\
    (S = [existsCall host] \/ S = [existsCall host; createCall host] \/
     S = [createCall host]) /\
    ChildProcess_spawn host
      (log0 ++ S ++ [ensureDirCall host; trampolineCall host])
      (powershellPath host) powershellArgs = Closes chunks (Some 0%Z) /\
    ((In (getBinPath host) (parsePathOutput (concat chunks)) /\ tail = []) \/
     (~ In (getBinPath host) (parsePathOutput (concat chunks)) /\
      tail = [writeCall host
                (parsePathOutput (concat chunks) ++ [getBinPath host])])) /\
    forall pre a post,
      performed (handleUpdated host) log0 = pre ++ a :: post ->
      callResult host (log0 ++ pre) a = Resolved tt.
Proof.
  intros Hr.
  destruct (handleUpdated_run host log0) as (S & T & r & E & HS & HT).
  assert (Ef : fst (handleUpdated host log0) = log0 ++ S ++ T)
    by (rewrite E; reflexivity).
  pose proof (all_calls_succeeded host (handleUpdated host) log0 (S ++ T) tt
                (Sequential_handleUpdated host) Ef Hr) as Hall.
  rewrite E in Hr. simpl in Hr.
  rewrite (performed_app (handleUpdated host) log0 (S ++ T) Ef).
  exists S.
  destruct HT as [r Hn|r Hn|r Hn|r Hn|chunks Hc Hin|chunks r Hc Hin];
    try (destruct (Hn tt Hr)).
  - exists chunks, []. repeat split; auto.
  - exists chunks,
      [writeCall host (parsePathOutput (concat chunks) ++ [getBinPath host])].
    repeat split; auto.
Qed.

Lemma handleUpdated_resolved_run_witness :
  exists S chunks tail,
    performed (handleUpdated (exampleHost home (js "C:\A") (Some 0%Z) true)) []
    = S ++ [ensureDirCall (exampleHost home (js "C:\A") (Some 0%Z) true);
            trampolineCall (exampleHost home (js "C:\A") (Some 0%Z) true);
            readCall (exampleHost home (js "C:\A") (Some 0%Z) true)] ++ tail /\
    ((In (js "C:\bin") (parsePathOutput (concat chunks)) /\ tail = []) \/
     (~ In (js "C:\bin") (parsePathOutput (concat chunks)) /\
      tail = [writeCall (exampleHost home (js "C:\A") (Some 0%Z) true)
                (parsePathOutput (concat chunks) ++ [js "C:\bin"])])).
Proof.
  destruct (handleUpdated_resolved_run
              (exampleHost home (js "C:\A") (Some 0%Z) true) [] eq_refl)
    as (S & chunks & tail & H & _ & _ & Ht & _).
  exists S, chunks, tail. split; [exact H | exact Ht].
Defined.

(** ** No call is repeated *)

Ltac distinct_calls :=
  repeat (constructor;
          [ let Hd := fresh "Hd" in
            simpl; intros Hd;
            repeat (destruct Hd as [Hd|Hd];
                    [ unfold existsCall, createCall, removeCall, readCall,
                        writeCall, ensureDirCall, trampolineCall in Hd;
                      discriminate Hd |]);
            exact Hd |]);
  constructor.

(** X12: no handler makes the same call twice in a run, so nothing is
    retried, and no run has more than six calls. *)
Theorem handler_never_repeats_a_call (host : Host) (eventName : jsstring)
  (handler : Async unit) (log0 : list action) :
  handleSquirrelEvent host eventName = Some handler ->
  NoDup (performed handler log0) /\ length (performed handler log0) <= 6.
Proof.
  unfold handleSquirrelEvent.
  repeat match goal with |- context [if ?b then _ else _] => destruct b end;
    intros E; try discriminate E; injection E as <-.
  - rewrite (performed_app (createShortcut host) log0 _
               (spawnSquirrelUpdate_log host _ log0)).
    split; [distinct_calls | simpl; lia].
  - destruct (handleUpdated_run host log0) as (S & T & r & E & HS & HT).
    rewrite (performed_app (handleUpdated host) log0 (S ++ T)
               ltac:(rewrite E; reflexivity)).
    destruct HT as [r0 Hn|r0 Hn|r0 Hn|r0 Hn|chunks Hc Hin|chunks r0 Hc Hin];
      destruct HS as [->|[->| ->]];
      (split; [simpl app; distinct_calls | simpl; lia]).
  - destruct (handleUninstall_run host log0) as (ext & r & E & HR).
    rewrite (performed_app (handleUninstall host) log0 ext
               ltac:(rewrite E; reflexivity)).
    destruct HR as [r0 Hn|r0 Hn|chunks r0 Hc];
      (split; [distinct_calls | simpl; lia]).
  - rewrite (performed_app (ret tt) log0 [] (eq_sym (app_nil_r log0))).
    split; [constructor | simpl; lia].
Qed.

Lemma handler_never_repeats_a_call_witness :
  NoDup (performed (handleUpdated (exampleHost home (js "C:\A") (Some 0%Z) true)) [])
  /\ length (performed (handleUpdated
                          (exampleHost home (js "C:\A") (Some 0%Z) true)) []) <= 6.
Proof.
  exact (handler_never_repeats_a_call
           (exampleHost home (js "C:\A") (Some 0%Z) true)
           (js "--squirrel-updated")
           (handleUpdated (exampleHost home (js "C:\A") (Some 0%Z) true))
           [] eq_refl).
Defined.

(** ** Update and uninstall, one after the other *)

Lemma withoutBinPath_appended (paths : list jsstring) (binPath : jsstring) :
  withoutBinPath (paths ++ [binPath]) binPath = withoutBinPath paths binPath.
Proof.
  unfold withoutBinPath. rewrite filter_app. simpl.
  rewrite str_eqb_refl. simpl. apply app_nil_r.
Qed.

Lemma handleUninstall_written (host : Host) (log0 log1 log2 : list action)
  (paths : list jsstring) :
  removeShortcut host log0 = (log1, Resolved tt) ->
  getPathSegments host log1 = (log2, Resolved paths) ->
  fst (handleUninstall host log0)
  = log2 ++ [writeCall host (withoutBinPath paths (getBinPath host))].
Proof.
  intros Hr Hg. unfold handleUninstall.
  rewrite (bind_resolved _ _ _ _ _ Hr), (bind_resolved _ _ _ _ _ Hg).
  apply setPathSegments_log.
Qed.

(** X13: [handleUninstall] undoes the append of [handleUpdated]: reading
    the segments that [handleUpdated] leaves, it writes back the segments
    that were there before, without any entry equal to the bin directory;
    these are the very segments from before the update when the bin
    directory was not among them. *)
Theorem handleUninstall_undoes_update (host : Host)
  (log0 log1 log2 : list action) (paths : list jsstring) :
  removeShortcut host log0 = (log1, Resolved tt) ->
  getPathSegments host log1
  = (log2, Resolved (segmentsAfterUpdated paths (getBinPath host))) ->
  fst (handleUninstall host log0)
  = log2 ++ [writeCall host (withoutBinPath paths (getBinPath host))] /\
  (~ In (getBinPath host) paths ->
   fst (handleUninstall host log0) = log2 ++ [writeCall host paths]).
Proof.
  intros Hr Hg.
  assert (E : withoutBinPath (segmentsAfterUpdated paths (getBinPath host))
                             (getBinPath host)
              = withoutBinPath paths (getBinPath host)).
  { destruct (in_dec (list_eq_dec N.eq_dec) (getBinPath host) paths) as [i|n].
    - rewrite segmentsAfterUpdated_present by exact i. reflexivity.
    - rewrite segmentsAfterUpdated_missing by exact n.
      apply withoutBinPath_appended. }
  pose proof (handleUninstall_written host _ _ _ _ Hr Hg) as H.
  rewrite E in H. split; [exact H|].
  intros Hn. rewrite (withoutBinPath_unchanged _ _ Hn) in H. exact H.
Qed.

Lemma handleUninstall_undoes_update_witness :
  let host := exampleHost home (js "C:\A;C:\B;C:\bin") (Some 0%Z) true in
  let log1 := fst (removeShortcut host []) in
  let log2 := fst (getPathSegments host log1) in
  fst (handleUninstall host [])
  = log2 ++ [ASpawn (js "C:\Windows\System32\setx.exe")
                    [js "Path"; js "C:\A;C:\B"]].
Proof.
  intros host log1 log2.
  refine (proj1 (handleUninstall_undoes_update host [] log1 log2
                   [js "C:\A"; js "C:\B"] _ _)); reflexivity.
Defined.

(** X14: [handleUninstall] run again on the segments it wrote writes
    the same segments again: nothing more is removed, and the write is
    still made. *)
Theorem handleUninstall_twice (host : Host)
  (log0 log1 log2 : list action) (paths : list jsstring) :
  removeShortcut host log0 = (log1, Resolved tt) ->
  getPathSegments host log1
  = (log2, Resolved (withoutBinPath paths (getBinPath host))) ->
  fst (handleUninstall host log0)
  = log2 ++ [writeCall host (withoutBinPath paths (getBinPath host))].
Proof.
  intros Hr Hg.
  pose proof (handleUninstall_written host _ _ _ _ Hr Hg) as H.
  rewrite (withoutBinPath_unchanged
             (withoutBinPath paths (getBinPath host)) (getBinPath host)
             (withoutBinPath_absent paths (getBinPath host))) in H.
  exact H.
Qed.

Lemma handleUninstall_twice_witness :
  let host := exampleHost home (js "C:\A;C:\B") (Some 0%Z) true in
  let log1 := fst (removeShortcut host []) in
  let log2 := fst (getPathSegments host log1) in
  fst (handleUninstall host [])
  = log2 ++ [ASpawn (js "C:\Windows\System32\setx.exe")
                    [js "Path"; js "C:\A;C:\B"]].
Proof.
  intros host log1 log2.
  refine (handleUninstall_twice host [] log1 log2
            [js "C:\bin"; js "C:\A"; js "C:\bin"; js "C:\B"] _ _); reflexivity.
Defined.

(** X15: [handleUpdated] run on the segments [handleUninstall] wrote
    always writes: the segments it leaves are those segments followed by
    the bin directory, which then occurs once, as the last segment,
    wherever and however often it occurred before the uninstall. *)
Theorem handleUpdated_after_uninstall (host : Host)
  (log0 log1 log2 log3 : list action) (binPath : jsstring)
  (paths : list jsstring) :
  updateShortcut host log0 = (log1, Resolved tt) ->
  writeCLITrampoline host log1 = (log2, Resolved binPath) ->
  getPathSegments host log2 = (log3, Resolved (withoutBinPath paths binPath)) ->
  fst (handleUpdated host log0)
  = log3 ++ [writeCall host (withoutBinPath paths binPath ++ [binPath])] /\
  withoutBinPath (withoutBinPath paths binPath ++ [binPath]) binPath
  = withoutBinPath paths binPath /\
  last (withoutBinPath paths binPath ++ [binPath]) [] = binPath.
Proof.
  intros Hs Ht Hp. split; [|split].
  - exact (handleUpdated_missing _ _ _ _ _ _ _ Hs Ht Hp
             (withoutBinPath_absent paths binPath)).
  - rewrite withoutBinPath_appended.
    apply withoutBinPath_unchanged. apply withoutBinPath_absent.
  - apply last_last.
Qed.

Lemma handleUpdated_after_uninstall_witness :
  let host := exampleHost home (js "C:\A;C:\B") (Some 0%Z) true in
  let log1 := fst (updateShortcut host []) in
  let log2 := fst (writeCLITrampoline host log1) in
  let log3 := fst (getPathSegments host log2) in
  fst (handleUpdated host [])
  = log3 ++ [ASpawn (js "C:\Windows\System32\setx.exe")
                    [js "Path"; js "C:\A;C:\B;C:\bin"]].
Proof.
  intros host log1 log2 log3.
  refine (proj1 (handleUpdated_after_uninstall host [] log1 log2 log3
                   (js "C:\bin")
                   [js "C:\bin"; js "C:\A"; js "C:\bin"; js "C:\B"] _ _ _));
    reflexivity.
Defined.

(** ** The value written by the uninstall, read back *)

Lemma clean_ends (segs : list jsstring) :
  Forall (fun seg => seg <> [] /\ ~ In semicolon seg /\
                     startsWithWhiteSpace seg = false /\
                     endsWithWhiteSpace seg = false) segs ->
  Forall (fun seg => seg <> [] /\ ~ In semicolon seg) segs /\
  startsWithWhiteSpace (hd [] segs) = false /\
  endsWithWhiteSpace (last segs []) = false.
Proof.
  intros F. split; [eapply Forall_impl; [|exact F]; simpl; tauto|].
  split.
  - destruct F as [|x l Hx _]; [reflexivity | simpl; tauto].
  - destruct segs as [|x l]; [reflexivity|].
    destruct (exists_last (l := x :: l)) as (i & z & E); [discriminate|].
    rewrite E in *. rewrite last_last.
    apply Forall_app in F. destruct F as [_ F]. inversion F; tauto.
Qed.

(** X16: when every segment read is non-empty, has no semicolon and has
    no white space at either end, the value [handleUninstall] gives to
    [setx], printed back by PowerShell, parses to the segments written,
    none of which is the bin directory. *)
Theorem uninstalled_path_reads_back (paths : list jsstring)
  (binPath trail : jsstring) :
  Forall (fun seg => seg <> [] /\ ~ In semicolon seg /\
                     startsWithWhiteSpace seg = false /\
                     endsWithWhiteSpace seg = false) paths ->
  Forall (fun c => isWhiteSpace c = true) trail ->
  parsePathOutput (join [semicolon] (withoutBinPath paths binPath) ++ trail)
  = withoutBinPath paths binPath /\
  ~ In binPath
       (parsePathOutput (join [semicolon] (withoutBinPath paths binPath) ++ trail)).
Proof.
  intros F Ht.
  assert (F' : Forall (fun seg => seg <> [] /\ ~ In semicolon seg /\
                                  startsWithWhiteSpace seg = false /\
                                  endsWithWhiteSpace seg = false)
                      (withoutBinPath paths binPath)).
  { rewrite Forall_forall in *. intros seg Hin.
    apply filter_In in Hin. apply F. tauto. }
  destruct (clean_ends _ F') as (F1 & Hs & He).
  assert (E : parsePathOutput
                (join [semicolon] (withoutBinPath paths binPath) ++ trail)
              = withoutBinPath paths binPath).
  { rewrite (parse_outer [] _ trail (Forall_nil _) Ht : parsePathOutput
               (join [semicolon] (withoutBinPath paths binPath) ++ trail) = _).
    apply parse_join_ends; assumption. }
  split; [exact E|]. rewrite E. apply withoutBinPath_absent.
Qed.

Lemma uninstalled_path_reads_back_witness :
  parsePathOutput
    (join [semicolon] (withoutBinPath [js "C:\bin"; js "C:\A"; js "C:\bin"]
                                      (js "C:\bin")) ++ [13; 10]%N)
  = withoutBinPath [js "C:\bin"; js "C:\A"; js "C:\bin"] (js "C:\bin").
Proof.
  refine (proj1 (uninstalled_path_reads_back
                   [js "C:\bin"; js "C:\A"; js "C:\bin"] (js "C:\bin")
                   [13; 10]%N _ _)).
  - repeat constructor; try discriminate;
      (intros H; vm_compute in H; intuition discriminate).
  - repeat constructor.
Defined.
